(** * solar-webui: the reconciliation hook [useInstances]

    A shallow embedding of [src/hooks/useInstances.ts]: the persisted order
    store, the order application function, the refresh cycle, the instance
    actions, the reorder controller and the effective-view derivation,
    followed by the properties the specification states about them.

    JavaScript strings are kept as byte strings (the UTF-8 form of the text),
    [undefined] and [null] fields as [None], and a function that can throw
    returns a [completion]. *)

From Stdlib Require Import ZArith Ascii String.
From stdpp Require Import gmap strings list sorting.

Local Open Scope string_scope.
Local Open Scope Z_scope.
Local Open Scope list_scope.

(** ** Completions: a call returns normally or throws *)

(** What [catch (err)] can receive: an instance of [Error] with its
    [message], or any other thrown value. *)
Inductive thrown : Type :=
| ErrorObject (message : string)
| NotAnError.

Inductive completion (A : Type) : Type :=
| Normal (a : A)
| Throw (e : thrown).
Arguments Normal {A} a.
Arguments Throw {A} e.

Definition bind {A B} (c : completion A) (k : A → completion B) : completion B :=
  match c with
  | Normal a => k a
  | Throw e => Throw e
  end.

Notation "x ←! c ; k" := (bind c (λ x, k))
  (at level 20, c at level 100, k at level 200, right associativity, only parsing).

(** The messages of the engine's own errors are never read by the hook. *)
Definition SyntaxError : thrown := ErrorObject "SyntaxError".
Definition TypeError : thrown := ErrorObject "TypeError".

(** [err instanceof Error ? err.message : fallback] *)
Definition message_or (fallback : string) (err : thrown) : string :=
  match err with
  | ErrorObject message => message
  | NotAnError => fallback
  end.

(** ** Run-time values, [JSON.parse] and [JSON.stringify] *)

(** A number keeps its decimal reading: [mantissa * 10 ^ exp10], negated when
    [negative].  The hook only ever asks whether a number is zero.

    [JSON.parse] returns values of the first six shapes.  The last two are
    the built-in objects that a property read on a plain object reaches
    through its prototype: a built-in function, of which the hook can read
    nothing but its [length], and [Object.prototype] itself. *)
#[warnings="-register-all"]
Inductive jsval : Type :=
| JNull
| JBool (b : bool)
| JNum (negative : bool) (mantissa : N) (exp10 : Z)
| JStr (s : string)
| JArr (elems : list jsval)
| JObj (fields : list (string * jsval))
| JFunction (arity : N)
| JObjectPrototype.

Definition dquote : ascii := "034"%char.
Definition backslash : ascii := "092"%char.

Definition is_ws (c : ascii) : bool :=
  Ascii.eqb c "009" || Ascii.eqb c "010" || Ascii.eqb c "013" || Ascii.eqb c " ".

Fixpoint skip_ws (s : string) : string :=
  match s with
  | String c s' => if is_ws c then skip_ws s' else s
  | EmptyString => s
  end.

Definition digit_val (c : ascii) : option N :=
  let n := N_of_ascii c in
  if ((48 <=? n) && (n <=? 57))%N then Some (n - 48)%N else None.

Definition hex_val (c : ascii) : option N :=
  let n := N_of_ascii c in
  if ((48 <=? n) && (n <=? 57))%N then Some (n - 48)%N
  else if ((97 <=? n) && (n <=? 102))%N then Some (n - 87)%N
  else if ((65 <=? n) && (n <=? 70))%N then Some (n - 55)%N
  else None.

(** The pieces of a string literal: a character taken as it stands, or the
    UTF-16 code unit of a [\uXXXX] escape. *)
Inductive strtok : Type :=
| Raw (c : ascii)
| Unit (u : N).

Definition simple_escape (e : ascii) : option ascii :=
  if Ascii.eqb e dquote then Some dquote
  else if Ascii.eqb e backslash then Some backslash
  else if Ascii.eqb e "/" then Some "/"%char
  else if Ascii.eqb e "b" then Some "008"%char
  else if Ascii.eqb e "f" then Some "012"%char
  else if Ascii.eqb e "n" then Some "010"%char
  else if Ascii.eqb e "r" then Some "013"%char
  else if Ascii.eqb e "t" then Some "009"%char
  else None.

(** The characters after the opening quote, up to the closing one. *)
Fixpoint parse_chars (s : string) : option (list strtok * string) :=
  match s with
  | EmptyString => None
  | String c s1 =>
    if Ascii.eqb c dquote then Some ([], s1)
    else if Ascii.eqb c backslash then
      match s1 with
      | EmptyString => None
      | String e s2 =>
        if Ascii.eqb e "u" then
          match s2 with
          | String h1 (String h2 (String h3 (String h4 s3))) =>
            match hex_val h1, hex_val h2, hex_val h3, hex_val h4 with
            | Some a, Some b, Some c', Some d =>
              match parse_chars s3 with
              | Some (ts, rest) => Some (Unit (a * 4096 + b * 256 + c' * 16 + d)%N :: ts, rest)
              | None => None
              end
            | _, _, _, _ => None
            end
          | _ => None
          end
        else
          match simple_escape e with
          | Some ch =>
            match parse_chars s2 with
            | Some (ts, rest) => Some (Raw ch :: ts, rest)
            | None => None
            end
          | None => None
          end
      end
    else if (N_of_ascii c <? 32)%N then None
    else
      match parse_chars s1 with
      | Some (ts, rest) => Some (Raw c :: ts, rest)
      | None => None
      end
  end.

Definition byte (n : N) : ascii := ascii_of_N n.

(** UTF-8 form of a code point (of a lone surrogate too). *)
Definition encode_cp (cp : N) : list ascii :=
  if (cp <? 128)%N then [byte cp]
  else if (cp <? 2048)%N then [byte (192 + cp / 64); byte (128 + cp mod 64)]
  else if (cp <? 65536)%N then
    [byte (224 + cp / 4096); byte (128 + (cp / 64) mod 64); byte (128 + cp mod 64)]
  else
    [byte (240 + cp / 262144); byte (128 + (cp / 4096) mod 64);
     byte (128 + (cp / 64) mod 64); byte (128 + cp mod 64)].

Definition is_high (u : N) : bool := ((55296 <=? u) && (u <=? 56319))%N.
Definition is_low (u : N) : bool := ((56320 <=? u) && (u <=? 57343))%N.

Fixpoint decode_tokens (ts : list strtok) : list ascii :=
  match ts with
  | [] => []
  | Raw c :: ts' => c :: decode_tokens ts'
  | Unit hi :: ts' =>
    match ts' with
    | Unit lo :: ts'' =>
      if is_high hi && is_low lo
      then encode_cp (65536 + (hi - 55296) * 1024 + (lo - 56320))%N ++ decode_tokens ts''
      else encode_cp hi ++ decode_tokens ts'
    | _ => encode_cp hi ++ decode_tokens ts'
    end
  end.

Definition parse_string (s : string) : option (string * string) :=
  match parse_chars s with
  | Some (ts, rest) => Some (string_of_list_ascii (decode_tokens ts), rest)
  | None => None
  end.

(** Leading decimal digits: their value read after [acc], how many there
    are, and what follows them. *)
Fixpoint take_digits (acc : N) (s : string) : N * nat * string :=
  match s with
  | String c s' =>
    match digit_val c with
    | Some d => let '(v, k, rest) := take_digits (acc * 10 + d)%N s' in (v, S k, rest)
    | None => (acc, O, s)
    end
  | EmptyString => (acc, O, s)
  end.

(** [-? int frac? exp?] with [int = 0 | [1-9][0-9]*]. *)
Definition parse_number (s : string) : option (jsval * string) :=
  let '(neg, s0) :=
    match s with
    | String c s' => if Ascii.eqb c "-" then (true, s') else (false, s)
    | EmptyString => (false, s)
    end in
  let int_part :=
    match s0 with
    | String c s' =>
      if Ascii.eqb c "0" then Some (0%N, s')
      else match digit_val c with
           | Some d => let '(v, _, rest) := take_digits d s' in Some (v, rest)
           | None => None
           end
    | EmptyString => None
    end in
  match int_part with
  | None => None
  | Some (iv, s1) =>
    let frac_part :=
      match s1 with
      | String c s' =>
        if Ascii.eqb c "." then
          let '(v, k, rest) := take_digits iv s' in
          match k with O => None | _ => Some (v, k, rest) end
        else Some (iv, O, s1)
      | EmptyString => Some (iv, O, s1)
      end in
    match frac_part with
    | None => None
    | Some (m, k, s2) =>
      let exp_part :=
        match s2 with
        | String c s' =>
          if Ascii.eqb c "e" || Ascii.eqb c "E" then
            let '(eneg, s3) :=
              match s' with
              | String d s'' =>
                if Ascii.eqb d "-" then (true, s'')
                else if Ascii.eqb d "+" then (false, s'')
                else (false, s')
              | EmptyString => (false, s')
              end in
            let '(v, n, rest) := take_digits 0 s3 in
            match n with
            | O => None
            | _ => Some ((if eneg then - Z.of_N v else Z.of_N v), rest)
            end
          else Some (0, s2)
        | EmptyString => Some (0, s2)
        end in
      match exp_part with
      | None => None
      | Some (e, s3) => Some (JNum neg m (e - Z.of_nat k), s3)
      end
    end
  end.

(** [expect w s]: [s] without its prefix [w]. *)
Fixpoint expect (w s : string) : option string :=
  match w with
  | EmptyString => Some s
  | String c w' =>
    match s with
    | String d s' => if Ascii.eqb c d then expect w' s' else None
    | EmptyString => None
    end
  end.

(** The value grammar.  [fuel] bounds the number of nested calls; a call
    that starts a value or a list of elements or members takes one unit. *)
Fixpoint parse_value (fuel : nat) (s : string) : option (jsval * string) :=
  match fuel with
  | O => None
  | S fuel' =>
    match skip_ws s with
    | EmptyString => None
    | String c rest =>
      if Ascii.eqb c "n" then option_map (pair JNull) (expect "ull" rest)
      else if Ascii.eqb c "t" then option_map (pair (JBool true)) (expect "rue" rest)
      else if Ascii.eqb c "f" then option_map (pair (JBool false)) (expect "alse" rest)
      else if Ascii.eqb c dquote then
        match parse_string rest with
        | Some (str, rest') => Some (JStr str, rest')
        | None => None
        end
      else if Ascii.eqb c "[" then
        match skip_ws rest with
        | String c' rest' =>
          if Ascii.eqb c' "]" then Some (JArr [], rest')
          else match parse_elements fuel' rest with
               | Some (vs, rest'') => Some (JArr vs, rest'')
               | None => None
               end
        | EmptyString => None
        end
      else if Ascii.eqb c "{" then
        match skip_ws rest with
        | String c' rest' =>
          if Ascii.eqb c' "}" then Some (JObj [], rest')
          else match parse_members fuel' rest with
               | Some (fs, rest'') => Some (JObj fs, rest'')
               | None => None
               end
        | EmptyString => None
        end
      else parse_number (String c rest)
    end
  end
with parse_elements (fuel : nat) (s : string) : option (list jsval * string) :=
  match fuel with
  | O => None
  | S fuel' =>
    match parse_value fuel' s with
    | Some (v, rest) =>
      match skip_ws rest with
      | String c rest' =>
        if Ascii.eqb c "," then
          match parse_elements fuel' rest' with
          | Some (vs, rest'') => Some (v :: vs, rest'')
          | None => None
          end
        else if Ascii.eqb c "]" then Some ([v], rest')
        else None
      | EmptyString => None
      end
    | None => None
    end
  end
with parse_members (fuel : nat) (s : string) : option (list (string * jsval) * string) :=
  match fuel with
  | O => None
  | S fuel' =>
    match skip_ws s with
    | String q s1 =>
      if Ascii.eqb q dquote then
        match parse_string s1 with
        | Some (key, s2) =>
          match skip_ws s2 with
          | String colon s3 =>
            if Ascii.eqb colon ":" then
              match parse_value fuel' s3 with
              | Some (v, rest) =>
                match skip_ws rest with
                | String c rest' =>
                  if Ascii.eqb c "," then
                    match parse_members fuel' rest' with
                    | Some (fs, rest'') => Some ((key, v) :: fs, rest'')
                    | None => None
                    end
                  else if Ascii.eqb c "}" then Some ([(key, v)], rest')
                  else None
                | EmptyString => None
                end
              | None => None
              end
            else None
          | EmptyString => None
          end
        | None => None
        end
      else None
    | EmptyString => None
    end
  end.

(** [JSON.parse(text)]: one value between optional white space, or a
    [SyntaxError].  Every nested call consumes a character at least every
    second step, so twice the length of the text is fuel enough. *)
Definition JSON_parse (text : string) : completion jsval :=
  match parse_value (2 * String.length text + 2) text with
  | Some (v, rest) =>
    match skip_ws rest with
    | EmptyString => Normal v
    | String _ _ => Throw SyntaxError
    end
  | None => Throw SyntaxError
  end.

Definition hex_digit (n : N) : ascii :=
  if (n <? 10)%N then ascii_of_N (48 + n) else ascii_of_N (87 + n).

(** [QuoteJSONString], one character at a time. *)
Definition escape_char (c : ascii) : list ascii :=
  if Ascii.eqb c dquote then [backslash; dquote]
  else if Ascii.eqb c backslash then [backslash; backslash]
  else if Ascii.eqb c "008" then [backslash; "b"%char]
  else if Ascii.eqb c "012" then [backslash; "f"%char]
  else if Ascii.eqb c "010" then [backslash; "n"%char]
  else if Ascii.eqb c "013" then [backslash; "r"%char]
  else if Ascii.eqb c "009" then [backslash; "t"%char]
  else if (N_of_ascii c <? 32)%N then
    [backslash; "u"%char; "0"%char; "0"%char;
     hex_digit (N_of_ascii c / 16); hex_digit (N_of_ascii c mod 16)]
  else [c].

Definition quote_string (s : string) : list ascii :=
  dquote :: concat (map escape_char (list_ascii_of_string s)) ++ [dquote].

Fixpoint join_elements (qs : list (list ascii)) : list ascii :=
  match qs with
  | [] => []
  | [q] => q
  | q :: qs' => q ++ ","%char :: join_elements qs'
  end.

(** [JSON.stringify(order)] for an array of strings. *)
Definition JSON_stringify (order : list string) : string :=
  string_of_list_ascii ("["%char :: join_elements (map quote_string order) ++ ["]"%char]).

(** [ToBoolean] and [=== 0] on parsed values. *)
Definition number_is_zero (mantissa : N) (exp10 : Z) : bool :=
  (mantissa =? 0)%N
  || ((exp10 <? 0) && (Z.of_N mantissa * 2 ^ 1075 <=? 10 ^ (- exp10))).

Definition js_truthy (v : jsval) : bool :=
  match v with
  | JNull => false
  | JBool b => b
  | JNum _ m e => negb (number_is_zero m e)
  | JStr s => negb (String.eqb s EmptyString)
  | JArr _ | JObj _ | JFunction _ | JObjectPrototype => true
  end.

(** ** Property reads on a plain object

    [instanceOrders] is a plain object used as a map from host ids to orders
    (lines 64-67).  A read [obj[key]] looks among the own properties of the
    object first and then in [Object.prototype], so a key that names one of
    the members every object inherits finds that member: a built-in
    function, or for [__proto__] the prototype itself.  The functions are
    listed with their [length] (ECMAScript 20.1.3 and B.2.2.1). *)
Definition Object_prototype : gmap string jsval :=
  list_to_map
    [ ("constructor", JFunction 1); ("hasOwnProperty", JFunction 1);
      ("isPrototypeOf", JFunction 1); ("propertyIsEnumerable", JFunction 1);
      ("toLocaleString", JFunction 0); ("toString", JFunction 0);
      ("valueOf", JFunction 0);
      ("__defineGetter__", JFunction 2); ("__defineSetter__", JFunction 2);
      ("__lookupGetter__", JFunction 1); ("__lookupSetter__", JFunction 1);
      ("__proto__", JObjectPrototype) ].

(** [orders[key]] for an object whose own properties are [orders]; [None] is
    [undefined]. *)
Definition Object_get (orders : gmap string (list string)) (key : string) : option jsval :=
  match orders !! key with
  | Some order => Some (JArr (map JStr order))
  | None => Object_prototype !! key
  end.

(** ** The persisted order store (lines 10-37) *)

(** [localStorage]: [getItem] is the lookup ([None] for [null]), [setItem]
    the insertion. *)
Abbreviation Storage := (gmap string string).

Definition HOST_ORDER_KEY : string := "solar_host_order".
Definition INSTANCE_ORDER_KEY_PREFIX : string := "solar_instance_order_".

(** [if (raw)]: neither [null] nor the empty string. *)
Definition raw_truthy (raw : string) : bool := negb (String.eqb raw EmptyString).

(** [try { raw = getItem(key); if (raw) return JSON.parse(raw); }
     catch { } return [];] *)
Definition read_order (ls : Storage) (key : string) : completion jsval :=
  match ls !! key with
  | Some raw =>
    if raw_truthy raw then
      match JSON_parse raw with
      | Normal v => Normal v
      | Throw _ => Normal (JArr [])
      end
    else Normal (JArr [])
  | None => Normal (JArr [])
  end.

Definition readHostOrder (ls : Storage) : completion jsval :=
  read_order ls HOST_ORDER_KEY.

Definition writeHostOrder (order : list string) (ls : Storage) : Storage :=
  <[HOST_ORDER_KEY := JSON_stringify order]> ls.

Definition readInstanceOrder (ls : Storage) (hostId : string) : completion jsval :=
  read_order ls (INSTANCE_ORDER_KEY_PREFIX +:+ hostId).

Definition writeInstanceOrder (hostId : string) (order : list string) (ls : Storage) : Storage :=
  <[INSTANCE_ORDER_KEY_PREFIX +:+ hostId := JSON_stringify order]> ls.

(** ** [Array.prototype.sort]

    ECMAScript requires [sort] to be stable, and for a consistent comparator
    every stable sort returns the same array.  It is modelled by a stable
    insertion sort: an element is put before the first element that the
    comparator does not place before it ([cmp x y <= 0]). *)

Section ArraySort.
Context {T : Type} (cmp : T → T → Z).

Fixpoint sort_insert (x : T) (l : list T) : list T :=
  match l with
  | [] => [x]
  | y :: l' => if cmp x y <=? 0 then x :: y :: l' else y :: sort_insert x l'
  end.

Fixpoint Array_sort (l : list T) : list T :=
  match l with
  | [] => []
  | x :: l' => sort_insert x (Array_sort l')
  end.
End ArraySort.

(** ** The order application function (lines 40-53) *)

(** [savedOrder.map((id, idx) => [id, idx])] *)
Definition order_entries (savedOrder : list string) : list (string * nat) :=
  imap (λ idx i, (i, idx)) savedOrder.

(** [new Map(entries)]: the entries are set from left to right, a later
    entry for a key replaces the earlier one. *)
Definition Map_new (entries : list (string * nat)) : gmap string nat :=
  fold_left (λ m e, <[e.1 := e.2]> m) entries ∅.

(** The entries of a parsed array that no annotation has checked: the items'
    ids are strings, so an entry under a key that is no string is one that
    no [orderMap.get(a.id)] returns; such entries keep their index and are
    left out of the map. *)
Definition order_entries_any (savedOrder : list jsval) : list (string * nat) :=
  omap (λ e, e) (imap (λ idx v, match v with JStr i => Some (i, idx) | _ => None end) savedOrder).

Section OrderApplication.
Context {T : Type} (id : T → string).

(** The comparator of lines 44-51; [None] is [undefined]. *)
Definition order_cmp (orderMap : gmap string nat) (a b : T) : Z :=
  match orderMap !! id a, orderMap !! id b with
  | Some ia, Some ib => Z.of_nat ia - Z.of_nat ib
  | Some _, None => -1
  | None, Some _ => 1
  | None, None => 0
  end.

Definition applySavedOrder (items : list T) (savedOrder : list string) : list T :=
  if (length savedOrder =? 0)%nat then items
  else
    let orderMap := Map_new (order_entries savedOrder) in
    Array_sort (order_cmp orderMap) items.

(** The same lines run on whatever value reaches them.  Reading [length] of
    [null] throws; a boolean, a number, a non-empty string, an object and a
    built-in function have no [map] method, so line 43 throws unless line 41
    has returned, which it does when [length] is [0]. *)
Definition applySavedOrder_any (items : list T) (savedOrder : jsval) : completion (list T) :=
  match savedOrder with
  | JArr order =>
    if (length order =? 0)%nat then Normal items
    else Normal (Array_sort (order_cmp (Map_new (order_entries_any order))) items)
  | JStr s => if String.eqb s EmptyString then Normal items else Throw TypeError
  | JObj fields =>
    match last (filter (λ f, f.1 = "length") fields) with
    | Some (_, JNum _ m e) => if number_is_zero m e then Normal items else Throw TypeError
    | _ => Throw TypeError
    end
  | JFunction arity => if (arity =? 0)%N then Normal items else Throw TypeError
  | JNull | JBool _ | JNum _ _ _ | JObjectPrototype => Throw TypeError
  end.
End OrderApplication.

(** ** The data of the hook

    [@/api/types] is not among the sources.  A host and an instance carry the
    fields the hook reads; what else the server sends stays a JSON value. *)

Record Instance : Type := {
  instance_id : string;
  instance_data : jsval;
}.

Record Host : Type := {
  host_id : string;
  host_name : string;
  host_status : string;
  host_memory : option jsval;
  host_data : jsval;
}.

(** [interface HostWithInstances extends Host { instances: Instance[] }] *)
Record HostWithInstances : Type := {
  host : Host;
  instances : list Instance;
}.

(** [h.id] of a host that carries its instances. *)
Definition id_of (h : HostWithInstances) : string := host_id (host h).

(** An entry of the live status overlay, [hostStatuses.get(host.id)]. *)
Record HostStatus : Type := {
  ws_status : string;
  ws_memory : option jsval;
}.

(** The state cells of the hook. *)
Record State : Type := {
  hosts : list HostWithInstances;
  loading : bool;
  error : option string;
  hostOrder : jsval;
  instanceOrders : gmap string (list string);
}.

Definition setHosts (v : list HostWithInstances) (s : State) : State :=
  {| hosts := v; loading := loading s; error := error s;
     hostOrder := hostOrder s; instanceOrders := instanceOrders s |}.
Definition setLoading (v : bool) (s : State) : State :=
  {| hosts := hosts s; loading := v; error := error s;
     hostOrder := hostOrder s; instanceOrders := instanceOrders s |}.
Definition setError (v : option string) (s : State) : State :=
  {| hosts := hosts s; loading := loading s; error := v;
     hostOrder := hostOrder s; instanceOrders := instanceOrders s |}.
Definition setHostOrder (v : jsval) (s : State) : State :=
  {| hosts := hosts s; loading := loading s; error := error s;
     hostOrder := v; instanceOrders := instanceOrders s |}.
Definition setInstanceOrders (v : gmap string (list string)) (s : State) : State :=
  {| hosts := hosts s; loading := loading s; error := error s;
     hostOrder := hostOrder s; instanceOrders := v |}.

(** The first render: [useState([])], [useState(true)], [useState(null)],
    [useState(readHostOrder)], [useState(() => ({}))]. *)
Definition initial_state (ls : Storage) : completion State :=
  order ←! readHostOrder ls;
  Normal {| hosts := []; loading := true; error := None;
            hostOrder := order; instanceOrders := ∅ |}.

(** ** The data source adapter *)

(** [solarClient] is an external collaborator; [@/api/client] is not among
    the sources.  Every call of a method is awaited, and a method is taken
    to return a promise: [Normal] is its fulfilment and [Throw] its
    rejection, and the call may change the server's state [World].
    [settled_at] is the instant at which the promise of an instance request
    issued in that state settles: requests that are pending together are
    answered in the order the network decides, not in the order they were
    issued. *)
Module solarClient.
Record t (World : Type) : Type := {
  getHosts : World → completion (list Host) * World;
  getHostInstances : string → World → completion (list Instance) * World;
  settled_at : string → World → Z;
  startInstance : string → string → World → completion () * World;
  stopInstance : string → string → World → completion () * World;
  restartInstance : string → string → World → completion () * World;
}.
Arguments getHosts {World}.
Arguments getHostInstances {World}.
Arguments settled_at {World}.
Arguments startInstance {World}.
Arguments stopInstance {World}.
Arguments restartInstance {World}.
End solarClient.

(** What the hook does to the outside, in order: the calls it issues to the
    adapter and the lines it writes with [console.error]. *)
Inductive event : Type :=
| CallGetHosts
| CallGetHostInstances (hostId : string)
| CallStartInstance (hostId instanceId : string)
| CallStopInstance (hostId instanceId : string)
| CallRestartInstance (hostId instanceId : string)
| ConsoleError (text : string).

Section Engine.
Context {World : Type} (client : solarClient.t World).

(** Lines 77-87.  [hostsData.map] issues the requests in the order of the
    host list, all of them before any is answered, and [Promise.all] returns
    the results in that order.  A request that fails leaves its host with no
    instances and a line on the console; the line is written when that
    request is rejected, so it is kept with the instant of the rejection. *)
Fixpoint fetchInstances (hostsData : list Host) (w : World)
  : list HostWithInstances * World * list event * list (Z * event) :=
  match hostsData with
  | [] => ([], w, [], [])
  | h :: rest =>
    let '(r, w1) := solarClient.getHostInstances client (host_id h) w in
    let t := solarClient.settled_at client (host_id h) w in
    let '(out, w2, calls, logs) := fetchInstances rest w1 in
    match r with
    | Normal fetched => ({| host := h; instances := fetched |} :: out, w2,
                    CallGetHostInstances (host_id h) :: calls, logs)
    | Throw _ => ({| host := h; instances := [] |} :: out, w2,
                  CallGetHostInstances (host_id h) :: calls,
                  (t, ConsoleError ("Failed to fetch instances for host " +:+ host_name h +:+ ":"))
                  :: logs)
    end
  end.

(** The lines in the order in which they were written: by the instant of
    the rejection that wrote them. *)
Definition written (logs : list (Z * event)) : list event :=
  snd <$> Array_sort (λ a b, a.1 - b.1) logs.

(** [fetchData], lines 69-96. *)
Definition fetchData (s : State) (w : World) : State * World * list event :=
  let s1 := setError None s in
  let '(r, w1) := solarClient.getHosts client w in
  match r with
  | Normal hostsData =>
    let '(hostsWithInstances, w2, calls, logs) := fetchInstances hostsData w1 in
    (setLoading false (setHosts hostsWithInstances s1), w2,
     CallGetHosts :: calls ++ written logs)
  | Throw err =>
    (setLoading false (setError (Some (message_or "Failed to fetch data" err)) s1), w1,
     [CallGetHosts; ConsoleError "Failed to fetch hosts:"])
  end.

(** The three actions, lines 111-137, differ in the adapter call, the
    event it leaves and the fallback message. *)
Definition instance_action
    (call : World → completion () * World) (ev : event) (fallback : string)
    (s : State) (w : World) : completion () * State * World * list event :=
  let '(r, w1) := call w in
  match r with
  | Normal _ =>
    let '(s', w2, evs) := fetchData s w1 in
    (Normal (), s', w2, ev :: evs)
  | Throw err => (Throw (ErrorObject (message_or fallback err)), s, w1, [ev])
  end.

Definition startInstance (hostId instanceId : string) :=
  instance_action (solarClient.startInstance client hostId instanceId)
    (CallStartInstance hostId instanceId) "Failed to start instance".

Definition stopInstance (hostId instanceId : string) :=
  instance_action (solarClient.stopInstance client hostId instanceId)
    (CallStopInstance hostId instanceId) "Failed to stop instance".

Definition restartInstance (hostId instanceId : string) :=
  instance_action (solarClient.restartInstance client hostId instanceId)
    (CallRestartInstance hostId instanceId) "Failed to restart instance".
End Engine.

(** ** The reorder controller (lines 141-184) *)

Inductive direction : Type := up | down.

(** [Array.prototype.indexOf]: the first index, or [-1]. *)
Fixpoint indexOf (l : list string) (x : string) : Z :=
  match l with
  | [] => -1
  | y :: l' =>
    if String.eqb y x then 0
    else let r := indexOf l' x in if r =? -1 then -1 else r + 1
  end.

(** [[a[i], a[j]] = [a[j], a[i]]] on a copy, for indices inside the array. *)
Definition swap (l : list string) (i j : nat) : list string :=
  match l !! i, l !! j with
  | Some x, Some y => <[j := x]> (<[i := y]> l)
  | _, _ => l
  end.

(** The body shared by both updaters once the full order is known: lines
    150-156 and 174-180.  [None] is the early [return prev]. *)
Definition moved_order (fullOrder : list string) (target : string) (dir : direction)
  : option (list string) :=
  let idx := indexOf fullOrder target in
  if idx =? -1 then None
  else
    let swapIdx := match dir with up => idx - 1 | down => idx + 1 end in
    if (swapIdx <? 0) || (swapIdx >=? Z.of_nat (length fullOrder)) then None
    else Some (swap fullOrder (Z.to_nat idx) (Z.to_nat swapIdx)).

(** [applySavedOrder(currentIds.map((id) => ({ id })), prev).map((x) => x.id)] *)
Definition full_order (currentIds : list string) (savedOrder : jsval) : completion (list string) :=
  applySavedOrder_any (λ x : string, x) currentIds savedOrder.

Definition moveHost (hostId : string) (dir : direction) (s : State) (ls : Storage)
  : completion (State * Storage) :=
  let prev := hostOrder s in
  let currentIds := map id_of (hosts s) in
  fullOrder ←! full_order currentIds prev;
  match moved_order fullOrder hostId dir with
  | None => Normal (s, ls)
  | Some newOrder =>
    Normal (setHostOrder (JArr (map JStr newOrder)) s, writeHostOrder newOrder ls)
  end.

(** [prev[hostId] ?? readInstanceOrder(hostId)]: the store is read only
    when the property read gives [undefined]. *)
Definition saved_instance_order (orders : gmap string (list string)) (ls : Storage)
    (hostId : string) : completion jsval :=
  match Object_get orders hostId with
  | Some v => Normal v
  | None => readInstanceOrder ls hostId
  end.

(** [{ ...prev, [hostId]: newOrder }] copies the own properties of [prev] and
    defines [hostId] as an own property, whatever the key: the insertion
    [<[hostId := newOrder]> prev]. *)
Definition moveInstance (hostId instanceId : string) (dir : direction) (s : State) (ls : Storage)
  : completion (State * Storage) :=
  let prev := instanceOrders s in
  match find (λ h, String.eqb (id_of h) hostId) (hosts s) with
  | None => Normal (s, ls)
  | Some h =>
    savedOrder ←! saved_instance_order prev ls hostId;
    let currentIds := map instance_id (instances h) in
    fullOrder ←! full_order currentIds savedOrder;
    match moved_order fullOrder instanceId dir with
    | None => Normal (s, ls)
    | Some newOrder =>
      Normal (setInstanceOrders (<[hostId := newOrder]> prev) s,
              writeInstanceOrder hostId newOrder ls)
    end
  end.

(** ** The effective view (lines 187-209) *)

(** [wsStatus.memory || host.memory] *)
Definition memory_or (overlaid canonical : option jsval) : option jsval :=
  match overlaid with
  | Some m => if js_truthy m then Some m else canonical
  | None => canonical
  end.

(** [base], lines 189-196; [hostStatuses?.get] of a missing map is
    [undefined]. *)
Definition overlay_host (hostStatuses : option (gmap string HostStatus)) (h : HostWithInstances)
  : HostWithInstances :=
  match hostStatuses ≫= (λ m, m !! id_of h) with
  | Some wsStatus =>
    {| host := {| host_id := host_id (host h); host_name := host_name (host h);
                  host_status := ws_status wsStatus;
                  host_memory := memory_or (ws_memory wsStatus) (host_memory (host h));
                  host_data := host_data (host h) |};
       instances := instances h |}
  | None => h
  end.

(** The callback of [hosts.map], lines 188-203. *)
Definition merge_host (hostStatuses : option (gmap string HostStatus))
    (orders : gmap string (list string)) (ls : Storage) (h : HostWithInstances)
  : completion HostWithInstances :=
  let base := overlay_host hostStatuses h in
  savedInstanceOrder ←! saved_instance_order orders ls (id_of h);
  sortedInstances ←! applySavedOrder_any instance_id (instances base) savedInstanceOrder;
  Normal {| host := host base; instances := sortedInstances |}.

Fixpoint map_completion {A B} (f : A → completion B) (l : list A) : completion (list B) :=
  match l with
  | [] => Normal []
  | x :: l' => y ←! f x; ys ←! map_completion f l'; Normal (y :: ys)
  end.

Definition mergedHosts (s : State) (hostStatuses : option (gmap string HostStatus)) (ls : Storage)
  : completion (list HostWithInstances) :=
  result ←! map_completion (merge_host hostStatuses (instanceOrders s) ls) (hosts s);
  applySavedOrder_any id_of result (hostOrder s).

(** ** Vocabulary of the statements *)

(** [orderMap.get(i)] for the map built from [savedOrder]. *)
Definition rank (savedOrder : list string) (i : string) : option nat :=
  Map_new (order_entries savedOrder) !! i.

(** The value a reader of the store gets for an order that was written. *)
Definition order_value (order : list string) : jsval := JArr (map JStr order).

(** [i] is ranked before [j]. *)
Definition rank_lt (order : list string) (i j : string) : Prop :=
  ∃ a b, rank order i = Some a ∧ rank order j = Some b ∧ (a < b)%nat.

(** The characters [cs] put in front of the text [s]. *)
Definition prepend (cs : list ascii) (s : string) : string := fold_right String s cs.

(** Nothing a read can use is stored under [key]: no text, the empty text,
    or a text [JSON.parse] rejects. *)
Definition unreadable (ls : Storage) (key : string) : Prop :=
  match ls !! key with
  | None => True
  | Some raw => raw = EmptyString ∨ ∃ e, JSON_parse raw = Throw e
  end.

(** The answers the instance requests of one refresh get, in the order of
    the host list. *)
Fixpoint instance_replies {World} (client : solarClient.t World) (hostsData : list Host) (w : World)
  : list (completion (list Instance)) :=
  match hostsData with
  | [] => []
  | h :: rest =>
    let '(r, w1) := solarClient.getHostInstances client (host_id h) w in
    r :: instance_replies client rest w1
  end.

(** [refresh()] begins with the request for the host list, so the request in
    a trace tells that a refresh ran. *)
Definition refresh_invoked (trace : list event) : Prop := CallGetHosts ∈ trace.

(** The three instance actions, to state what they share. *)
Inductive action : Type := Start | Stop | Restart.

Definition adapter_call {World} (client : solarClient.t World) (a : action)
  : string → string → World → completion () * World :=
  match a with
  | Start => solarClient.startInstance client
  | Stop => solarClient.stopInstance client
  | Restart => solarClient.restartInstance client
  end.

Definition hook_action {World} (client : solarClient.t World) (a : action)
  : string → string → State → World → completion () * State * World * list event :=
  match a with
  | Start => startInstance client
  | Stop => stopInstance client
  | Restart => restartInstance client
  end.

Definition action_event (a : action) : string → string → event :=
  match a with
  | Start => CallStartInstance
  | Stop => CallStopInstance
  | Restart => CallRestartInstance
  end.

Definition action_fallback (a : action) : string :=
  match a with
  | Start => "Failed to start instance"
  | Stop => "Failed to stop instance"
  | Restart => "Failed to restart instance"
  end.

(** Moving the first entity up or the last entity down. *)
Definition at_boundary (fullOrder : list string) (target : string) (dir : direction) : Prop :=
  match dir with
  | up => head fullOrder = Some target
  | down => last fullOrder = Some target
  end.

(** [j] is the position next to [i] in the direction of the move. *)
Definition adjacent (dir : direction) (i j : nat) : Prop :=
  match dir with
  | up => i = S j
  | down => j = S i
  end.

(** Every saved order the effective view consults is an array. *)
Definition orders_are_arrays (s : State) (ls : Storage) : Prop :=
  (∃ l, hostOrder s = JArr l)
  ∧ ∀ h, h ∈ hosts s → ∃ l, saved_instance_order (instanceOrders s) ls (id_of h) = Normal (JArr l).

(** What the effective view shows for the canonical host [h]. *)
Definition shown_as (hostStatuses : option (gmap string HostStatus))
    (orders : gmap string (list string)) (ls : Storage) (h r : HostWithInstances) : Prop :=
  host_id (host r) = host_id (host h)
  ∧ host_name (host r) = host_name (host h)
  ∧ host_data (host r) = host_data (host h)
  ∧ bind (saved_instance_order orders ls (id_of h))
         (applySavedOrder_any instance_id (instances h)) = Normal (instances r)
  ∧ instances r ≡ₚ instances h
  ∧ match hostStatuses ≫= (λ m, m !! id_of h) with
    | Some entry =>
      host_status (host r) = ws_status entry
      ∧ host_memory (host r)
        = match ws_memory entry with
          | Some m => if js_truthy m then Some m else host_memory (host h)
          | None => host_memory (host h)
          end
    | None =>
      host_status (host r) = host_status (host h)
      ∧ host_memory (host r) = host_memory (host h)
    end.

(** ** The scenarios of the specification *)

Definition instance_of (i : string) : Instance :=
  {| instance_id := i; instance_data := JNull |}.

Definition host_of (i : string) (st : string) (mem : option jsval) : Host :=
  {| host_id := i; host_name := i; host_status := st; host_memory := mem; host_data := JNull |}.

Definition state_of (hs : list HostWithInstances) : State :=
  {| hosts := hs; loading := true; error := None; hostOrder := JArr []; instanceOrders := ∅ |}.

(** Hosts A and B; A runs two instances, the request for those of B fails;
    starting an instance is refused. *)
Definition scenario_client : solarClient.t () := {|
  solarClient.getHosts w := (Normal [host_of "A" "online" None; host_of "B" "online" None], w);
  solarClient.getHostInstances hostId w :=
    (if String.eqb hostId "A" then Normal [instance_of "a1"; instance_of "a2"]
     else Throw (ErrorObject "timeout"), w);
  solarClient.settled_at _ _ := 0;
  solarClient.startInstance _ _ w := (Throw (ErrorObject "connection refused"), w);
  solarClient.stopInstance _ _ w := (Normal (), w);
  solarClient.restartInstance _ _ w := (Throw NotAnError, w);
|}.

(** The host list itself cannot be fetched. *)
Definition offline_client : solarClient.t () := {|
  solarClient.getHosts w := (Throw (ErrorObject "Network Error"), w);
  solarClient.getHostInstances _ w := (Throw (ErrorObject "Network Error"), w);
  solarClient.settled_at _ _ := 0;
  solarClient.startInstance _ _ w := (Throw (ErrorObject "Network Error"), w);
  solarClient.stopInstance _ _ w := (Throw (ErrorObject "Network Error"), w);
  solarClient.restartInstance _ _ w := (Throw (ErrorObject "Network Error"), w);
|}.

(** [fullOrder] is the effective order of [currentIds] under the saved order
    [prev]: every current id is in it, those not saved in the order they had
    and after the saved ones. *)
Definition effective_order (currentIds prev fullOrder : list string) : Prop :=
  fullOrder = applySavedOrder (λ x : string, x) currentIds prev
  ∧ fullOrder ≡ₚ currentIds
  ∧ filter (.∉ prev) fullOrder = filter (.∉ prev) currentIds
  ∧ fullOrder = filter (.∈ prev) fullOrder ++ filter (.∉ prev) fullOrder.

(** [newOrder] is [fullOrder] with the target at [i] and its neighbour at
    [j] exchanged. *)
Definition swapped (fullOrder : list string) (target : string) (i j : nat)
    (newOrder : list string) : Prop :=
  newOrder !! i = fullOrder !! j
  ∧ newOrder !! j = Some target
  ∧ (∀ k, k ≠ i → k ≠ j → newOrder !! k = fullOrder !! k)
  ∧ length newOrder = length fullOrder.

(** Host h with the instances i1, i2, i3 and that order saved. *)
Definition scenario_host : HostWithInstances :=
  {| host := host_of "h" "online" None;
     instances := [instance_of "i1"; instance_of "i2"; instance_of "i3"] |}.

Definition scenario_store : Storage := writeInstanceOrder "h" ["i1"; "i2"; "i3"] ∅.

(** Host H, stopped and with a memory reading, two instances saved in the
    order i2, i1; the overlay reports it running and carries no memory. *)
Definition overlaid_host : HostWithInstances :=
  {| host := host_of "H" "stopped" (Some (JNum false 16 0));
     instances := [instance_of "i1"; instance_of "i2"] |}.

Definition overlay_entry : HostStatus := {| ws_status := "running"; ws_memory := None |}.

(** The store holds nothing but orders the hook wrote. *)
Definition hook_store (ls : Storage) : Prop :=
  ∀ key raw, ls !! key = Some raw → ∃ order, raw = JSON_stringify order.

(** The orders are what their TypeScript types say: sequences of ids. *)
Definition typed_orders (s : State) (ls : Storage) : Prop :=
  hook_store ls ∧ ∃ prev, hostOrder s = order_value prev.

(** The read [orders[hostId]] finds an own property or nothing: an order is
    cached under [hostId], or [hostId] names no inherited member. *)
Definition no_inherited_order (orders : gmap string (list string)) (hostId : string) : Prop :=
  is_Some (orders !! hostId) ∨ Object_prototype !! hostId = None.

(** [ls'] is [ls] with the text of [newOrder] under [key] and nothing else
    changed. *)
Definition stored_under (key : string) (newOrder : list string) (ls ls' : Storage) : Prop :=
  ls' !! key = Some (JSON_stringify newOrder)
  ∧ ∀ key', key' ≠ key → ls' !! key' = ls !! key'.

(** [s'] is [s] with [newOrder] as the host order and nothing else changed. *)
Definition host_order_cached (newOrder : list string) (s s' : State) : Prop :=
  hostOrder s' = order_value newOrder
  ∧ instanceOrders s' = instanceOrders s
  ∧ hosts s' = hosts s ∧ loading s' = loading s ∧ error s' = error s.

(** [s'] is [s] with [newOrder] as the cached instance order of [hostId] and
    nothing else changed. *)
Definition instance_order_cached (hostId : string) (newOrder : list string) (s s' : State)
  : Prop :=
  instanceOrders s' !! hostId = Some newOrder
  ∧ (∀ hostId', hostId' ≠ hostId → instanceOrders s' !! hostId' = instanceOrders s !! hostId')
  ∧ hostOrder s' = hostOrder s
  ∧ hosts s' = hosts s ∧ loading s' = loading s ∧ error s' = error s.

(** A parsed value that lines 41-43 cannot use as a saved order: reading its
    [length] throws, or its [length] is not [0] and it has no [map]. *)
Definition no_order (v : jsval) : Prop :=
  match v with
  | JNull | JBool _ | JNum _ _ _ => True
  | JStr s => s ≠ EmptyString
  | JArr _ => False
  | JObj fields =>
    match last (filter (λ f, f.1 = "length") fields) with
    | Some (_, JNum _ m e) => number_is_zero m e = false
    | _ => True
    end
  | JFunction arity => arity ≠ 0%N
  | JObjectPrototype => True
  end.

(** The line a failed instance request leaves on the console. *)
Definition instance_failure_line (h : Host) : event :=
  ConsoleError ("Failed to fetch instances for host " +:+ host_name h +:+ ":").

(** The console lines of one refresh: one for each host whose request
    failed, listed here in the order of the host list. *)
Definition failure_lines (hostsData : list Host) (replies : list (completion (list Instance)))
  : list event :=
  omap (λ hr, match hr.2 with
              | Throw _ => Some (instance_failure_line hr.1)
              | Normal _ => None
              end) (zip hostsData replies).

(** The adapter calls of a trace, in order, and its console lines. *)
Definition is_request (e : event) : bool :=
  match e with
  | ConsoleError _ => false
  | _ => true
  end.

Definition requests (trace : list event) : list event :=
  filter (λ e, is_request e = true) trace.

Definition console_lines (trace : list event) : list event :=
  filter (λ e, is_request e = false) trace.

Definition opposite (dir : direction) : direction :=
  match dir with up => down | down => up end.

(** ** The tables that show the view (UnifiedTable, InstanceTable)

    [length], [includes], [split] and [slice] count UTF-16 code units; for
    the functions that use them a string is the list of its code units. *)

Definition slash : N := 47.
Definition dot : N := 46.

(** [s.slice(start, end)]; [None] is an omitted [end].  A negative index
    counts from the end, and both are clamped to the string. *)
Definition js_slice (s : list N) (start : Z) (end_ : option Z) : list N :=
  let len := Z.of_nat (length s) in
  let clamp := λ k, if k <? 0 then Z.max (len + k) 0 else Z.min k len in
  let from := clamp start in
  let to := match end_ with Some e => clamp e | None => len end in
  if from >=? to then [] else take (Z.to_nat (to - from)) (drop (Z.to_nat from) s).

(** [s.split(sep)] for a separator of one code unit. *)
Fixpoint js_split (sep : N) (s : list N) : list (list N) :=
  match s with
  | [] => [[]]
  | c :: s' =>
    if (c =? sep)%N then [] :: js_split sep s'
    else match js_split sep s' with
         | part :: parts => (c :: part) :: parts
         | [] => [[c]]
         end
  end.

(** [truncateModel], the same function in both tables (lines 60-71 and
    332-344 of the table sources). *)
Definition truncateModel (model : list N) (maxLen : Z) : list N :=
  if Z.of_nat (length model) <=? maxLen then model
  else if bool_decide (slash ∈ model) then
    let parts := js_split slash model in
    let filename := default [] (last parts) in
    if Z.of_nat (length filename) <=? maxLen - 4 then [dot; dot; dot; slash] ++ filename
    else [dot; dot; dot] ++ js_slice filename (- (maxLen - 3)) None
  else js_slice model 0 (Some (maxLen - 3)) ++ [dot; dot; dot].

(** The code units of a text of one-byte characters. *)
Definition units (s : string) : list N := N_of_ascii <$> list_ascii_of_string s.

(** The rows of the unified table, lines 86-103. *)
Inductive ModelCategory : Type := generation | embedding | classification | reranker.

Definition CATEGORY_ORDER (c : ModelCategory) : Z :=
  match c with
  | generation => 0
  | embedding => 1
  | classification => 2
  | reranker => 3
  end.

Record HostInfo : Type := {
  info_id : string;
  info_name : string;
}.

Record UnifiedRow : Type := {
  row_instance : Instance;
  row_host : HostInfo;
}.

Section UnifiedTable.
(** [getModelCategory(instance.config)] and [instance.config.alias] come from
    [@/api/types], [localeCompare] from the platform; [None] is a category
    the table does not list. *)
Context (getModelCategory : Instance → option ModelCategory).
Context (alias : Instance → string).
Context (localeCompare : string → string → Z).

(** [CATEGORY_ORDER[...] ?? 99] *)
Definition category_rank (r : UnifiedRow) : Z :=
  match getModelCategory (row_instance r) with
  | Some c => CATEGORY_ORDER c
  | None => 99
  end.

Definition host_rows (h : HostWithInstances) : list UnifiedRow :=
  (λ inst, {| row_instance := inst;
              row_host := {| info_id := id_of h; info_name := host_name (host h) |} |})
  <$> instances h.

(** The two [for] loops. *)
Definition all_rows (hosts : list HostWithInstances) : list UnifiedRow :=
  concat (host_rows <$> hosts).

Definition row_cmp (a b : UnifiedRow) : Z :=
  let catA := category_rank a in
  let catB := category_rank b in
  if negb (catA =? catB) then catA - catB
  else localeCompare (alias (row_instance a)) (alias (row_instance b)).

Definition rows (hosts : list HostWithInstances) : list UnifiedRow :=
  Array_sort row_cmp (all_rows hosts).
End UnifiedTable.

(** Aliases compared by their length: a comparator to try the rows on. *)
Definition by_length (a b : string) : Z :=
  Z.of_nat (String.length a) - Z.of_nat (String.length b).

(** * Properties *)

(** ** The stable sort *)

Section ArraySortFacts.
Context {T : Type} (cmp : T → T → Z).

Local Abbreviation le := (λ a b, cmp a b <= 0).

Lemma sort_insert_perm x l : sort_insert cmp x l ≡ₚ x :: l.
Proof.
  induction l as [|y l IH]; simpl; [done|].
  destruct (cmp x y <=? 0); [done|].
  rewrite IH. apply Permutation_swap.
Qed.

Lemma Array_sort_perm l : Array_sort cmp l ≡ₚ l.
Proof.
  induction l as [|x l IH]; simpl; [done|].
  by rewrite sort_insert_perm, IH.
Qed.

(** Stability: elements the comparator ties with each other keep the order
    they had. *)
Lemma sort_insert_filter (P : T → Prop) `{!∀ x, Decision (P x)} x l :
  (∀ a b, P a → P b → cmp a b <= 0) →
  filter P (sort_insert cmp x l) = filter P (x :: l).
Proof.
  intros Htie. induction l as [|y l IH]; simpl; [done|].
  destruct (Z.leb_spec (cmp x y) 0) as [Hle|Hgt]; [done|].
  rewrite filter_cons, IH, !filter_cons.
  destruct (decide (P y)) as [Hy|Hy]; [|done].
  destruct (decide (P x)) as [Hx|Hx]; [|done].
  specialize (Htie x y Hx Hy). lia.
Qed.

Lemma Array_sort_stable (P : T → Prop) `{!∀ x, Decision (P x)} l :
  (∀ a b, P a → P b → cmp a b <= 0) →
  filter P (Array_sort cmp l) = filter P l.
Proof.
  intros Htie. induction l as [|x l IH]; simpl; [done|].
  rewrite sort_insert_filter by done. by rewrite !filter_cons, IH.
Qed.

Section Consistent.
Hypothesis cmp_total : ∀ a b, cmp a b <= 0 ∨ cmp b a <= 0.
Hypothesis cmp_trans : ∀ a b c, cmp a b <= 0 → cmp b c <= 0 → cmp a c <= 0.

Lemma sort_insert_sorted x l :
  StronglySorted le l → StronglySorted le (sort_insert cmp x l).
Proof.
  induction 1 as [|y l Hl IH Hy]; simpl.
  { repeat constructor. }
  destruct (Z.leb_spec (cmp x y) 0) as [Hle|Hgt].
  - constructor; [by constructor|].
    constructor; [done|].
    eapply Forall_impl; [exact Hy|]. intros z Hz. by eapply cmp_trans.
  - constructor; [done|].
    rewrite sort_insert_perm. constructor; [|done].
    destruct (cmp_total x y); [lia|done].
Qed.

Lemma Array_sort_sorted l : StronglySorted le (Array_sort cmp l).
Proof.
  induction l as [|x l IH]; simpl; [constructor|].
  by apply sort_insert_sorted.
Qed.

(** A sorted array is left as it is. *)
Lemma Array_sort_fixed l : StronglySorted le l → Array_sort cmp l = l.
Proof.
  induction 1 as [|x l Hl IH Hx]; simpl; [done|].
  rewrite IH. destruct Hx as [|y l' Hy _]; simpl; [done|].
  by destruct (Z.leb_spec (cmp x y) 0); [|lia].
Qed.

Lemma Array_sort_idempotent l : Array_sort cmp (Array_sort cmp l) = Array_sort cmp l.
Proof. apply Array_sort_fixed, Array_sort_sorted. Qed.

(** What the language asks of [sort] determines the result: two sorted
    arrangements of the same elements that keep every class of tied
    elements in the same order are equal. *)
Lemma stable_sorted_unique l1 l2 :
  l1 ≡ₚ l2 → StronglySorted le l1 → StronglySorted le l2 →
  (∀ x, filter (λ y, cmp x y <= 0 ∧ cmp y x <= 0) l1
        = filter (λ y, cmp x y <= 0 ∧ cmp y x <= 0) l2) →
  l1 = l2.
Proof.
  intros Hperm Hs1. revert l2 Hperm.
  induction Hs1 as [|a l1 Hs1 IH Ha]; intros l2 Hperm Hs2 Htie.
  { by apply Permutation_nil in Hperm. }
  destruct Hs2 as [|b l2 Hs2 Hb].
  { by apply Permutation_nil_r in Hperm. }
  rewrite Forall_forall in Ha, Hb.
  assert (cmp a a <= 0) as Haa by (destruct (cmp_total a a); done).
  assert (cmp a b <= 0 ∧ cmp b a <= 0) as [Hab Hba].
  { assert (b ∈ a :: l1) as [->|Hin]%elem_of_cons by (rewrite Hperm; by left);
      [done|].
    assert (a ∈ b :: l2) as [->|Hin']%elem_of_cons by (rewrite <-Hperm; by left);
      [done|]. auto. }
  assert (a = b) as <-.
  { specialize (Htie a). rewrite !filter_cons in Htie.
    rewrite decide_True in Htie by done. rewrite decide_True in Htie by done.
    by injection Htie. }
  f_equal. apply IH; [by apply (inj (a ::.))|done|].
  intros x. specialize (Htie x). rewrite !filter_cons in Htie.
  destruct (decide (cmp x a <= 0 ∧ cmp a x <= 0)); [by injection Htie|done].
Qed.

(** So any stable sort returns what [Array_sort] returns. *)
Lemma Array_sort_canonical l l' :
  l' ≡ₚ l → StronglySorted le l' →
  (∀ x, filter (λ y, cmp x y <= 0 ∧ cmp y x <= 0) l'
        = filter (λ y, cmp x y <= 0 ∧ cmp y x <= 0) l) →
  l' = Array_sort cmp l.
Proof.
  intros Hperm Hsorted Hstable. apply stable_sorted_unique.
  - by rewrite Array_sort_perm.
  - done.
  - apply Array_sort_sorted.
  - intros x. rewrite Hstable. symmetry. apply Array_sort_stable.
    intros a b [_ Hax] [Hxb _]. by eapply cmp_trans.
Qed.
End Consistent.
End ArraySortFacts.

(** ** The order map *)

Lemma Map_new_lookup_acc (es : list (string * nat)) (m : gmap string nat) i :
  fold_left (λ m e, <[e.1 := e.2]> m) es m !! i
  = match Map_new es !! i with Some k => Some k | None => m !! i end.
Proof.
  unfold Map_new. revert m. induction es as [|[k v] es IH]; intros m; simpl.
  { by rewrite lookup_empty. }
  rewrite IH, (IH (<[k:=v]> ∅)).
  destruct (fold_left _ es ∅ !! i); [done|].
  rewrite !lookup_insert. case_decide; [done|]. by rewrite lookup_empty.
Qed.

Lemma Map_new_shift (es : list (string * nat)) i :
  Map_new (prod_map (λ x, x) S <$> es) !! i = S <$> Map_new es !! i.
Proof.
  unfold Map_new.
  assert (∀ m : gmap string nat,
    fold_left (λ m e, <[e.1 := e.2]> m) (prod_map (λ x, x) S <$> es) (S <$> m)
    = S <$> fold_left (λ m e, <[e.1 := e.2]> m) es m) as H.
  { induction es as [|[k v] es IH]; intros m; simpl; [done|].
    by rewrite <-IH, fmap_insert. }
  specialize (H ∅). rewrite fmap_empty in H. by rewrite H, lookup_fmap.
Qed.

Lemma order_entries_cons x (order : list string) :
  order_entries (x :: order) = (x, O) :: (prod_map (λ x, x) S <$> order_entries order).
Proof.
  unfold order_entries. rewrite imap_cons. f_equal.
  rewrite fmap_imap. by apply imap_ext.
Qed.

(** The rank of an id is the index of its last occurrence. *)
Lemma rank_cons x order i :
  rank (x :: order) i
  = match rank order i with
    | Some k => Some (S k)
    | None => if decide (x = i) then Some O else None
    end.
Proof.
  unfold rank. rewrite order_entries_cons. unfold Map_new at 1. simpl.
  rewrite Map_new_lookup_acc, Map_new_shift.
  destruct (Map_new (order_entries order) !! i); simpl; [done|].
  rewrite lookup_insert. case_decide; [done|]. by rewrite lookup_empty.
Qed.

Lemma rank_nil i : rank [] i = None.
Proof. unfold rank. simpl. apply lookup_empty. Qed.

Lemma rank_is_Some order i : is_Some (rank order i) ↔ i ∈ order.
Proof.
  induction order as [|x order IH].
  { rewrite rank_nil, elem_of_nil. split; [by intros [? ?]|done]. }
  rewrite rank_cons, elem_of_cons, <-IH.
  destruct (rank order i) as [k|] eqn:Hr.
  - split; [by right|by eexists].
  - case_decide as Hx; subst.
    + split; [by left|by eexists].
    + split; [by intros [? ?]|]. intros [->|[? ?]]; done.
Qed.

Lemma rank_None order i : rank order i = None ↔ i ∉ order.
Proof. rewrite <-rank_is_Some, eq_None_not_Some. done. Qed.

Lemma rank_inj order i j k : rank order i = Some k → rank order j = Some k → i = j.
Proof.
  revert k. induction order as [|x order IH]; intros k.
  { by rewrite rank_nil. }
  rewrite !rank_cons.
  destruct (rank order i) as [ki|] eqn:Hi, (rank order j) as [kj|] eqn:Hj;
    repeat case_decide; intros; simplify_eq; eauto.
Qed.

(** An id is ranked where it stands last. *)
Lemma rank_lookup order i k : rank order i = Some k → order !! k = Some i.
Proof.
  revert k. induction order as [|x order IH]; intros k.
  { by rewrite rank_nil. }
  rewrite rank_cons. destruct (rank order i) as [ki|] eqn:Hi.
  - intros [= <-]. simpl. by apply IH.
  - case_decide; [|done]. intros [= <-]. by subst.
Qed.

Lemma rank_last order i k j :
  rank order i = Some k → (k < j)%nat → order !! j ≠ Some i.
Proof.
  revert k j. induction order as [|x order IH]; intros k j.
  { by rewrite rank_nil. }
  rewrite rank_cons. destruct (rank order i) as [ki|] eqn:Hi.
  - intros [= <-] Hlt. destruct j as [|j]; [lia|]. simpl. eapply IH; [done|lia].
  - case_decide; [|done]. intros [= <-] Hlt. destruct j as [|j]; [lia|]. simpl.
    intros Hj. apply rank_None in Hi. apply Hi. by eapply list_elem_of_lookup_2.
Qed.

(** Ranks grow along the saved order once every repeated id is kept at its
    last position only, which is what [remove_dups] does. *)
Lemma rank_lt_cons x order i j : rank_lt order i j → rank_lt (x :: order) i j.
Proof.
  intros (a & b & Ha & Hb & Hlt). exists (S a), (S b).
  rewrite !rank_cons, Ha, Hb. repeat split; lia.
Qed.

Lemma remove_dups_ranked order : StronglySorted (rank_lt order) (remove_dups order).
Proof.
  induction order as [|x order IH]; simpl; [constructor|].
  assert (StronglySorted (rank_lt (x :: order)) (remove_dups order)) as IH'.
  { clear -IH. induction IH as [|y l Hl IHl Hy]; constructor; [done|].
    eapply Forall_impl; [exact Hy|]. intros z. apply rank_lt_cons. }
  destruct (decide_rel elem_of x order) as [Hin|Hin]; [done|].
  constructor; [done|]. apply Forall_forall. intros y Hy.
  rewrite elem_of_remove_dups in Hy. pose proof Hy as [b Hb]%rank_is_Some.
  apply rank_None in Hin. exists O, (S b).
  rewrite !rank_cons, Hin, Hb. rewrite decide_True by done. repeat split; lia.
Qed.

Lemma omap_imap_Some {A B} (f : nat → A → B) (l : list A) :
  omap (λ e, e) (imap (λ n x, Some (f n x)) l) = imap f l.
Proof.
  revert f. induction l as [|x l IH]; intros f; [done|].
  rewrite !imap_cons. simpl. f_equal. apply IH.
Qed.

Lemma order_entries_any_strings (order : list string) :
  order_entries_any (JStr <$> order) = order_entries order.
Proof.
  unfold order_entries_any, order_entries.
  rewrite imap_fmap. apply (omap_imap_Some (λ idx i, (i, idx))).
Qed.

Lemma filter_none {A} (P : A → Prop) `{!∀ x, Decision (P x)} (l : list A) :
  Forall (λ x, ¬ P x) l → filter P l = [].
Proof.
  induction 1 as [|x l Hx _ IH]; [done|].
  by rewrite filter_cons, decide_False.
Qed.

Lemma filter_all {A} (P : A → Prop) `{!∀ x, Decision (P x)} (l : list A) :
  Forall P l → filter P l = l.
Proof.
  induction 1 as [|x l Hx _ IH]; [done|].
  rewrite filter_cons, decide_True by done. by f_equal.
Qed.

(** ** The comparator of [applySavedOrder] is consistent *)

Section OrderCmpFacts.
Context {T : Type} (id : T → string) (orderMap : gmap string nat).

Lemma order_cmp_total a b :
  order_cmp id orderMap a b <= 0 ∨ order_cmp id orderMap b a <= 0.
Proof.
  unfold order_cmp. destruct (orderMap !! id a), (orderMap !! id b); lia.
Qed.

Lemma order_cmp_trans a b c :
  order_cmp id orderMap a b <= 0 → order_cmp id orderMap b c <= 0 →
  order_cmp id orderMap a c <= 0.
Proof.
  unfold order_cmp.
  destruct (orderMap !! id a), (orderMap !! id b), (orderMap !! id c); lia.
Qed.

Lemma order_cmp_antisym a b :
  order_cmp id orderMap a b = - order_cmp id orderMap b a.
Proof.
  unfold order_cmp. destruct (orderMap !! id a), (orderMap !! id b); lia.
Qed.

(** In a sorted array nothing known follows something unknown. *)
Lemma sorted_known_first (l : list T) :
  StronglySorted (λ a b, order_cmp id orderMap a b <= 0) l →
  l = filter (λ x, is_Some (orderMap !! id x)) l
      ++ filter (λ x, ¬ is_Some (orderMap !! id x)) l.
Proof.
  induction 1 as [|x l Hl IH Hx]; [done|].
  rewrite !filter_cons. destruct (decide (is_Some (orderMap !! id x))) as [Hk|Hk].
  - rewrite decide_False by tauto. simpl. by f_equal.
  - rewrite decide_True by done.
    assert (Forall (λ y, ¬ is_Some (orderMap !! id y)) l) as Hall.
    { eapply Forall_impl; [exact Hx|]. intros y. unfold order_cmp.
      apply eq_None_not_Some in Hk. rewrite Hk.
      destruct (orderMap !! id y); [lia|]. intros _ [? ?]. done. }
    rewrite filter_none by done. by rewrite filter_all by done.
Qed.
End OrderCmpFacts.

Lemma StronglySorted_filter_fmap {A B} (R1 : relation A) (R2 : relation B)
    (f : A → B) (P : A → Prop) `{!∀ x, Decision (P x)} (l : list A) :
  (∀ x y, P x → P y → R1 x y → R2 (f x) (f y)) →
  StronglySorted R1 l → StronglySorted R2 (f <$> filter P l).
Proof.
  intros Hmono. induction 1 as [|x l Hl IH Hx]; [constructor|].
  rewrite filter_cons. destruct (decide (P x)) as [Px|Px]; [|done].
  csimpl. constructor; [done|].
  rewrite Forall_fmap. apply Forall_forall. intros y [Py Hy]%list_elem_of_filter.
  rewrite Forall_forall in Hx. simpl. auto.
Qed.

Section ApplySavedOrderFacts.
Context {T : Type} (id : T → string).

Lemma applySavedOrder_nil items : applySavedOrder id items [] = items.
Proof. done. Qed.

Lemma applySavedOrder_cons items i order :
  applySavedOrder id items (i :: order)
  = Array_sort (order_cmp id (Map_new (order_entries (i :: order)))) items.
Proof. done. Qed.

Lemma applySavedOrder_perm items order : applySavedOrder id items order ≡ₚ items.
Proof.
  destruct order; [done|]. rewrite applySavedOrder_cons. apply Array_sort_perm.
Qed.

Lemma applySavedOrder_sorted items order :
  order ≠ [] →
  StronglySorted (λ a b, order_cmp id (Map_new (order_entries order)) a b <= 0)
    (applySavedOrder id items order).
Proof.
  destruct order; [done|]. intros _. rewrite applySavedOrder_cons.
  apply Array_sort_sorted; [apply order_cmp_total|apply order_cmp_trans].
Qed.

Lemma applySavedOrder_unknown items order :
  filter (λ x, id x ∉ order) (applySavedOrder id items order)
  = filter (λ x, id x ∉ order) items.
Proof.
  destruct order as [|i order]; [done|]. rewrite applySavedOrder_cons.
  apply Array_sort_stable. intros a b Ha%rank_None Hb%rank_None.
  unfold order_cmp. unfold rank in Ha, Hb. by rewrite Ha, Hb.
Qed.

Lemma applySavedOrder_known_first items order :
  applySavedOrder id items order
  = filter (λ x, id x ∈ order) (applySavedOrder id items order)
    ++ filter (λ x, id x ∉ order) (applySavedOrder id items order).
Proof.
  destruct (decide (order = [])) as [->|Hne].
  { rewrite applySavedOrder_nil, filter_none, filter_all; [done|..];
      apply Forall_forall; intros x _; apply not_elem_of_nil. }
  pose proof (sorted_known_first _ _ _ (applySavedOrder_sorted items order Hne)) as H.
  etrans; [exact H|]. f_equal; apply list_filter_iff; intros x.
  - apply rank_is_Some.
  - by rewrite <-rank_is_Some.
Qed.

Lemma applySavedOrder_known items order :
  NoDup (id <$> items) →
  id <$> filter (λ x, id x ∈ order) (applySavedOrder id items order)
  = filter (.∈ id <$> items) (remove_dups order).
Proof.
  intros Hnd. destruct (decide (order = [])) as [->|Hne].
  { rewrite applySavedOrder_nil, filter_none; [done|].
    apply Forall_forall; intros x _; apply not_elem_of_nil. }
  set (Rel := λ i j : string,
    ∃ a b, rank order i = Some a ∧ rank order j = Some b ∧ (a <= b)%nat).
  apply (StronglySorted_unique_strong Rel).
  - intros i j _ _ (a & b & Ha & Hb & Hab) (b' & a' & Hb' & Ha' & Hba).
    simplify_eq. assert (a = b) as -> by lia. by eapply rank_inj.
  - apply (StronglySorted_filter_fmap
             (λ a b, order_cmp id (Map_new (order_entries order)) a b <= 0)).
    + intros x y [a Ha]%rank_is_Some [b Hb]%rank_is_Some. unfold order_cmp.
      unfold rank in Ha, Hb. rewrite Ha, Hb. intros Hle. exists a, b.
      unfold rank. repeat split; [done..|lia].
    + by apply applySavedOrder_sorted.
  - rewrite <-(list_fmap_id (filter _ (remove_dups order))).
    apply (StronglySorted_filter_fmap (rank_lt order)); [|apply remove_dups_ranked].
    intros i j _ _ (a & b & Ha & Hb & Hlt). exists a, b. repeat split; [done..|lia].
  - apply NoDup_Permutation.
    + apply (sublist_NoDup _ (id <$> applySavedOrder id items order)).
      * by rewrite applySavedOrder_perm.
      * apply fmap_sublist, sublist_filter.
    + apply NoDup_filter, NoDup_remove_dups.
    + intros i. rewrite list_elem_of_fmap, list_elem_of_filter, elem_of_remove_dups.
      split.
      * intros (x & -> & [Hx Hin]%list_elem_of_filter). split; [|done].
        rewrite applySavedOrder_perm in Hin. by apply list_elem_of_fmap_2.
      * intros [(x & -> & Hx)%list_elem_of_fmap Hi]. exists x. split; [done|].
        apply list_elem_of_filter. split; [done|]. by rewrite applySavedOrder_perm.
Qed.
End ApplySavedOrderFacts.

(** ** Reading back what [JSON.stringify] wrote *)

Lemma prepend_app cs1 cs2 s : prepend (cs1 ++ cs2) s = prepend cs1 (prepend cs2 s).
Proof. unfold prepend. by rewrite foldr_app. Qed.

Lemma string_of_list_ascii_prepend cs : string_of_list_ascii cs = prepend cs EmptyString.
Proof. induction cs as [|c cs IH]; simpl; [done|]. by rewrite IH. Qed.

Lemma prepend_length cs s : String.length (prepend cs s) = (length cs + String.length s)%nat.
Proof. induction cs as [|c cs IH]; simpl; [done|]. by rewrite IH. Qed.

Lemma decode_tokens_small_unit u ts :
  (u < 128)%N → decode_tokens (Unit u :: ts) = byte u :: decode_tokens ts.
Proof.
  intros Hu. simpl.
  assert (is_high u = false) as Hhi.
  { unfold is_high. apply andb_false_intro1. apply N.leb_gt. lia. }
  assert (encode_cp u = [byte u]) as Hen.
  { unfold encode_cp. by rewrite (proj2 (N.ltb_lt _ _) Hu). }
  destruct ts as [|[c|lo] ts]; rewrite ?Hhi, Hen; done.
Qed.

(** One escaped character is read back as that character. *)
Lemma parse_chars_escape_char c s :
  ∃ tok, (∀ ts, decode_tokens (tok :: ts) = c :: decode_tokens ts)
    ∧ parse_chars (prepend (escape_char c) s)
      = match parse_chars s with
        | Some (ts, rest) => Some (tok :: ts, rest)
        | None => None
        end.
Proof.
  destruct c as [[] [] [] [] [] [] [] []];
    (eexists; split; cycle 1;
     [ simpl; reflexivity
     | intros ts; first [ reflexivity
                        | rewrite decode_tokens_small_unit by reflexivity; reflexivity ] ]).
Qed.

Lemma parse_chars_quoted cs rest :
  ∃ ts, decode_tokens ts = cs
    ∧ parse_chars (prepend (concat (map escape_char cs)) (String dquote rest)) = Some (ts, rest).
Proof.
  induction cs as [|c cs (ts & Hdec & Hparse)].
  { exists []. done. }
  destruct (parse_chars_escape_char c
    (prepend (concat (map escape_char cs)) (String dquote rest))) as (tok & Htok & Hc).
  exists (tok :: ts). split.
  - by rewrite Htok, Hdec.
  - simpl. by rewrite prepend_app, Hc, Hparse.
Qed.

Lemma parse_string_quoted s rest :
  parse_string (prepend (concat (map escape_char (list_ascii_of_string s))) (String dquote rest))
  = Some (s, rest).
Proof.
  unfold parse_string.
  destruct (parse_chars_quoted (list_ascii_of_string s) rest) as (ts & Hdec & ->).
  by rewrite Hdec, string_of_list_ascii_of_string.
Qed.

Lemma prepend_quote_string s rest :
  prepend (quote_string s) rest
  = String dquote (prepend (concat (map escape_char (list_ascii_of_string s)))
                     (String dquote rest)).
Proof. unfold quote_string. simpl. by rewrite prepend_app. Qed.

Lemma parse_value_quoted fuel s rest :
  parse_value (S fuel) (prepend (quote_string s) rest) = Some (JStr s, rest).
Proof.
  rewrite prepend_quote_string.
  change (parse_value (S fuel) (String dquote ?t))
    with (match parse_string t with
          | Some (str, rest') => Some (JStr str, rest')
          | None => None
          end).
  by rewrite parse_string_quoted.
Qed.

Lemma parse_elements_strings order s0 fuel rest :
  (length order < fuel)%nat →
  parse_elements (S fuel)
    (prepend (join_elements (map quote_string (s0 :: order))) (String "]" rest))
  = Some (map JStr (s0 :: order), rest).
Proof.
  revert s0 fuel. induction order as [|s1 order IH]; intros s0 fuel Hfuel.
  - destruct fuel as [|fuel]; [simpl in Hfuel; lia|].
    change (parse_elements (S (S fuel)) ?t)
      with (match parse_value (S fuel) t with
            | Some (v, r) =>
              match skip_ws r with
              | String c rest' =>
                if Ascii.eqb c "," then
                  match parse_elements (S fuel) rest' with
                  | Some (vs, rest'') => Some (v :: vs, rest'')
                  | None => None
                  end
                else if Ascii.eqb c "]" then Some ([v], rest')
                else None
              | EmptyString => None
              end
            | None => None
            end).
    simpl map. simpl join_elements. by rewrite parse_value_quoted.
  - destruct fuel as [|fuel]; [simpl in Hfuel; lia|].
    change (parse_elements (S (S fuel)) ?t)
      with (match parse_value (S fuel) t with
            | Some (v, r) =>
              match skip_ws r with
              | String c rest' =>
                if Ascii.eqb c "," then
                  match parse_elements (S fuel) rest' with
                  | Some (vs, rest'') => Some (v :: vs, rest'')
                  | None => None
                  end
                else if Ascii.eqb c "]" then Some ([v], rest')
                else None
              | EmptyString => None
              end
            | None => None
            end).
    change (join_elements (map quote_string (s0 :: s1 :: order)))
      with (quote_string s0 ++ ","%char :: join_elements (map quote_string (s1 :: order))).
    rewrite prepend_app, parse_value_quoted.
    change (prepend (","%char :: ?j) ?r) with (String "," (prepend j r)).
    change (skip_ws (String "," ?t)) with (String "," t).
    change (Ascii.eqb "," ",") with true. cbv iota.
    rewrite IH by (simpl in Hfuel; lia). done.
Qed.

Lemma join_elements_length (qs : list (list ascii)) :
  Forall (λ q, q ≠ []) qs → (length qs <= length (join_elements qs))%nat.
Proof.
  induction 1 as [|q qs Hq Hqs IH]; [done|].
  destruct qs as [|q' qs].
  - simpl. destruct q; [done|]. simpl. lia.
  - change (join_elements (q :: q' :: qs)) with (q ++ ","%char :: join_elements (q' :: qs)).
    rewrite length_app. simpl in *. lia.
Qed.

Theorem JSON_parse_stringify order :
  JSON_parse (JSON_stringify order) = Normal (order_value order).
Proof.
  destruct order as [|s0 order]; [done|].
  unfold JSON_parse, JSON_stringify.
  set (J := join_elements (map quote_string (s0 :: order))).
  assert (length (s0 :: order) <= length J)%nat as Hlen.
  { unfold J. etrans; [|apply join_elements_length].
    - by rewrite length_map.
    - apply Forall_forall. intros q (s & -> & _)%list_elem_of_fmap. done. }
  assert (∃ tl, J = dquote :: tl) as [tl HJ].
  { unfold J. destruct order; simpl; eauto. }
  change (string_of_list_ascii ("["%char :: J ++ ["]"%char]))
    with (String "[" (string_of_list_ascii (J ++ ["]"%char]))).
  rewrite string_of_list_ascii_prepend, prepend_app.
  change (prepend ["]"%char] EmptyString) with (String "]" EmptyString).
  simpl String.length. rewrite prepend_length. simpl String.length.
  replace (2 * S (length J + 1) + 2)%nat with (S (S (2 * length J + 4))) by lia.
  set (f := (2 * length J + 4)%nat).
  assert (parse_value (S (S f)) (String "[" (prepend J (String "]" EmptyString)))
          = match parse_elements (S f) (prepend J (String "]" EmptyString)) with
            | Some (vs, rest'') => Some (JArr vs, rest'')
            | None => None
            end) as ->.
  { rewrite HJ. done. }
  unfold J. rewrite parse_elements_strings; [done|].
  unfold f. simpl in Hlen. lia.
Qed.

(** ** The fuel of [JSON_parse] never runs out

    A text that some amount of fuel parses is parsed, to the same value, by
    any amount from twice its length on: no [SyntaxError] of [JSON_parse]
    comes from the bound on the fuel. *)

Lemma skip_ws_length s : (String.length (skip_ws s) <= String.length s)%nat.
Proof.
  induction s as [|c s IH]; simpl; [done|].
  destruct (is_ws c); simpl; lia.
Qed.

Lemma skip_ws_cons_length s c rest :
  skip_ws s = String c rest → (String.length rest < String.length s)%nat.
Proof.
  intros H. pose proof (skip_ws_length s) as Hle. rewrite H in Hle. simpl in Hle. lia.
Qed.

Lemma parse_chars_length s ts r :
  parse_chars s = Some (ts, r) → (String.length r < String.length s)%nat.
Proof.
  remember (String.length s) as n eqn:Hn.
  assert (String.length s <= n)%nat as Hle by lia. clear Hn.
  revert s ts r Hle. induction n as [|n IH]; intros s ts r Hle H.
  { destruct s; [done|simpl in Hle; lia]. }
  destruct s as [|c s1]; [done|]. simpl in Hle, H.
  repeat (case_match; simplify_eq; try done);
    match goal with
    | Hrec : parse_chars ?t = Some _ |- _ =>
      apply IH in Hrec; [simpl in *; lia|simpl in *; lia]
    | _ => simpl; lia
    end.
Qed.

Lemma parse_string_length s str r :
  parse_string s = Some (str, r) → (String.length r < String.length s)%nat.
Proof.
  unfold parse_string. destruct (parse_chars s) as [[ts r']|] eqn:H; [|done].
  intros [= _ <-]. by eapply parse_chars_length.
Qed.

Lemma take_digits_length s acc v k r :
  take_digits acc s = (v, k, r) → (String.length r <= String.length s)%nat.
Proof.
  revert acc v k r. induction s as [|c s IH]; intros acc v k r; simpl.
  { by intros [= _ _ <-]. }
  destruct (digit_val c) as [d|]; [|intros [= _ _ <-]; simpl; lia].
  destruct (take_digits (acc * 10 + d) s) as [[v' k'] r'] eqn:H.
  intros [= _ _ <-]. apply IH in H. lia.
Qed.

Lemma parse_number_length s v r :
  parse_number s = Some (v, r) → (String.length r < String.length s)%nat.
Proof.
  unfold parse_number. intros H.
  repeat (case_match; simplify_eq; try done);
    repeat match goal with
    | Hd : take_digits _ _ = _ |- _ => apply take_digits_length in Hd
    end; simpl in *; lia.
Qed.

Lemma expect_length w s r : expect w s = Some r → (String.length r <= String.length s)%nat.
Proof.
  revert s. induction w as [|c w IH]; intros s; simpl.
  { by intros [= <-]. }
  destruct s as [|d s]; [done|]. destruct (Ascii.eqb c d); [|done].
  intros H. apply IH in H. simpl. lia.
Qed.

Lemma parse_value_S f s :
  parse_value (S f) s
  = match skip_ws s with
    | EmptyString => None
    | String c rest =>
      if Ascii.eqb c "n" then option_map (pair JNull) (expect "ull" rest)
      else if Ascii.eqb c "t" then option_map (pair (JBool true)) (expect "rue" rest)
      else if Ascii.eqb c "f" then option_map (pair (JBool false)) (expect "alse" rest)
      else if Ascii.eqb c dquote then
        match parse_string rest with
        | Some (str, rest') => Some (JStr str, rest')
        | None => None
        end
      else if Ascii.eqb c "[" then
        match skip_ws rest with
        | String c' rest' =>
          if Ascii.eqb c' "]" then Some (JArr [], rest')
          else match parse_elements f rest with
               | Some (vs, rest'') => Some (JArr vs, rest'')
               | None => None
               end
        | EmptyString => None
        end
      else if Ascii.eqb c "{" then
        match skip_ws rest with
        | String c' rest' =>
          if Ascii.eqb c' "}" then Some (JObj [], rest')
          else match parse_members f rest with
               | Some (fs, rest'') => Some (JObj fs, rest'')
               | None => None
               end
        | EmptyString => None
        end
      else parse_number (String c rest)
    end.
Proof. reflexivity. Qed.

Lemma parse_elements_S f s :
  parse_elements (S f) s
  = match parse_value f s with
    | Some (v, rest) =>
      match skip_ws rest with
      | String c rest' =>
        if Ascii.eqb c "," then
          match parse_elements f rest' with
          | Some (vs, rest'') => Some (v :: vs, rest'')
          | None => None
          end
        else if Ascii.eqb c "]" then Some ([v], rest')
        else None
      | EmptyString => None
      end
    | None => None
    end.
Proof. reflexivity. Qed.

Lemma parse_members_S f s :
  parse_members (S f) s
  = match skip_ws s with
    | String q s1 =>
      if Ascii.eqb q dquote then
        match parse_string s1 with
        | Some (key, s2) =>
          match skip_ws s2 with
          | String colon s3 =>
            if Ascii.eqb colon ":" then
              match parse_value f s3 with
              | Some (v, rest) =>
                match skip_ws rest with
                | String c rest' =>
                  if Ascii.eqb c "," then
                    match parse_members f rest' with
                    | Some (fs, rest'') => Some ((key, v) :: fs, rest'')
                    | None => None
                    end
                  else if Ascii.eqb c "}" then Some ([(key, v)], rest')
                  else None
                | EmptyString => None
                end
              | None => None
              end
            else None
          | EmptyString => None
          end
        | None => None
        end
      else None
    | EmptyString => None
    end.
Proof. reflexivity. Qed.

Ltac length_facts :=
  repeat match goal with
  | H : skip_ws _ = String _ _ |- _ => apply skip_ws_cons_length in H
  | H : expect _ _ = Some _ |- _ => apply expect_length in H
  | H : parse_string _ = Some _ |- _ => apply parse_string_length in H
  | H : parse_number _ = Some _ |- _ => apply parse_number_length in H
  end.

Ltac norm_lengths := cbn [String.length fst snd] in *.

Ltac replay :=
  repeat match goal with
  | H : ?t = _ |- context [?t] => rewrite H
  end.

Lemma parse_fuel f :
  (∀ s x, parse_value f s = Some x →
     (String.length x.2 < String.length s)%nat
     ∧ ∀ f', (2 * String.length s + 1 <= f')%nat → parse_value f' s = Some x)
  ∧ (∀ s x, parse_elements f s = Some x →
     (String.length x.2 < String.length s)%nat
     ∧ ∀ f', (2 * String.length s + 2 <= f')%nat → parse_elements f' s = Some x)
  ∧ (∀ s x, parse_members f s = Some x →
     (String.length x.2 < String.length s)%nat
     ∧ ∀ f', (2 * String.length s + 2 <= f')%nat → parse_members f' s = Some x).
Proof.
  induction f as [|f (IHv & IHe & IHm)]; [done|].
  split; [|split].
  - intros s [v r] H. rewrite parse_value_S in H.
    repeat (case_match; simplify_eq; try done);
      repeat match goal with
      | Hr : parse_elements f _ = Some _ |- _ => apply IHe in Hr as [? ?]
      | Hr : parse_members f _ = Some _ |- _ => apply IHm in Hr as [? ?]
      | Hr : option_map _ ?o = Some _ |- _ =>
        destruct o eqn:?; cbn [option_map] in Hr; simplify_eq
      end.
    all: (split;
      [ length_facts; norm_lengths; lia
      | intros [|f'] Hf'; [lia|]; rewrite parse_value_S; replay; cbn [option_map];
        try done;
        match goal with
        | Hfuel : ∀ f', _ → parse_elements f' ?t = _ |- context [parse_elements ?g ?t] =>
          rewrite (Hfuel g); [done|length_facts; norm_lengths; lia]
        | Hfuel : ∀ f', _ → parse_members f' ?t = _ |- context [parse_members ?g ?t] =>
          rewrite (Hfuel g); [done|length_facts; norm_lengths; lia]
        end ]).
  - intros s [vs r] H. rewrite parse_elements_S in H.
    repeat (case_match; simplify_eq; try done);
      repeat match goal with
      | Hr : parse_value f _ = Some _ |- _ => apply IHv in Hr as [? ?]
      | Hr : parse_elements f _ = Some _ |- _ => apply IHe in Hr as [? ?]
      end.
    all: (split;
      [ length_facts; norm_lengths; lia
      | intros [|f'] Hf'; [lia|]; rewrite parse_elements_S;
        match goal with
        | Hfuel : ∀ f', _ → parse_value f' ?t = _ |- context [parse_value ?g ?t] =>
          rewrite (Hfuel g); [|length_facts; norm_lengths; lia]
        end;
        replay; try done;
        match goal with
        | Hfuel : ∀ f', _ → parse_elements f' ?t = _ |- context [parse_elements ?g ?t] =>
          rewrite (Hfuel g); [done|length_facts; norm_lengths; lia]
        end ]).
  - intros s [fs r] H. rewrite parse_members_S in H.
    repeat (case_match; simplify_eq; try done);
      repeat match goal with
      | Hr : parse_value f _ = Some _ |- _ => apply IHv in Hr as [? ?]
      | Hr : parse_members f _ = Some _ |- _ => apply IHm in Hr as [? ?]
      end.
    all: (split;
      [ length_facts; norm_lengths; lia
      | intros [|f'] Hf'; [lia|]; rewrite parse_members_S; replay;
        match goal with
        | Hfuel : ∀ f', _ → parse_value f' ?t = _ |- context [parse_value ?g ?t] =>
          rewrite (Hfuel g); [|length_facts; norm_lengths; lia]
        end;
        replay; try done;
        match goal with
        | Hfuel : ∀ f', _ → parse_members f' ?t = _ |- context [parse_members ?g ?t] =>
          rewrite (Hfuel g); [done|length_facts; norm_lengths; lia]
        end ]).
Qed.

(** [JSON_parse] rejects a text only if no amount of fuel parses it. *)
Theorem JSON_parse_fuel text fuel v rest :
  parse_value fuel text = Some (v, rest) →
  parse_value (2 * String.length text + 2) text = Some (v, rest).
Proof.
  intros H. destruct (parse_fuel fuel) as (Hv & _). destruct (Hv _ _ H) as [_ Hfuel].
  apply Hfuel. lia.
Qed.

(** ** The order application function *)

Lemma remove_dups_NoDup (l : list string) : NoDup l → remove_dups l = l.
Proof.
  induction 1 as [|x l Hx Hl IH]; simpl; [done|].
  destruct (decide_rel elem_of x l); [done|]. by f_equal.
Qed.

(** C1, as the code has it.  For entities [items] with unique ids and any
    saved order: an empty saved order returns [items] itself; otherwise the
    entities whose id is in the saved order come in the order of the last
    occurrence of their id there (the saved order itself when it repeats no
    id), the other entities keep the order they had in [items], and all of
    them follow every entity whose id is saved.  Saved order [h2, h1] on the
    hosts [h1, h3, h2] gives [h2, h1, h3]. *)
Theorem applySavedOrder_order :
  (∀ (T : Type) (id : T → string) (items : list T) (savedOrder : list string),
    NoDup (id <$> items) →
    let result := applySavedOrder id items savedOrder in
    (savedOrder = [] → result = items)
    ∧ id <$> filter (λ x, id x ∈ savedOrder) result
      = filter (.∈ id <$> items) (remove_dups savedOrder)
    ∧ (NoDup savedOrder →
       id <$> filter (λ x, id x ∈ savedOrder) result = filter (.∈ id <$> items) savedOrder)
    ∧ filter (λ x, id x ∉ savedOrder) result = filter (λ x, id x ∉ savedOrder) items
    ∧ result = filter (λ x, id x ∈ savedOrder) result ++ filter (λ x, id x ∉ savedOrder) result)
  ∧ applySavedOrder host_id
      [host_of "h1" "online" None; host_of "h3" "online" None; host_of "h2" "online" None]
      ["h2"; "h1"]
    = [host_of "h2" "online" None; host_of "h1" "online" None; host_of "h3" "online" None].
Proof.
  split; [|by vm_compute].
  intros T id items savedOrder Hnd result. subst result. repeat split.
  - by intros ->.
  - by apply applySavedOrder_known.
  - intros Hs. rewrite applySavedOrder_known by done. by rewrite remove_dups_NoDup.
  - apply applySavedOrder_unknown.
  - apply applySavedOrder_known_first.
Qed.

Lemma applySavedOrder_order_witness :
  NoDup ((λ x : string, x) <$> ["h1"; "h3"; "h2"])
  ∧ (λ x : string, x) <$> filter (λ x, x ∈ ["h2"; "h1"])
      (applySavedOrder (λ x : string, x) ["h1"; "h3"; "h2"] ["h2"; "h1"])
    = filter (.∈ (λ x : string, x) <$> ["h1"; "h3"; "h2"]) (remove_dups ["h2"; "h1"]).
Proof.
  assert (NoDup ((λ x : string, x) <$> ["h1"; "h3"; "h2"])) as Hnd.
  { refine (bool_decide_unpack _ _). vm_compute. exact I. }
  split; [exact Hnd|].
  exact (proj1 (proj2 (proj1 applySavedOrder_order string (λ x, x)
                         ["h1"; "h3"; "h2"] ["h2"; "h1"] Hnd))).
Defined.

(** C1 as stated fails for a saved order that repeats an id: with [a, b, a]
    saved, the entities [a, b] come out as [b, a], which is not the saved
    order restricted to the ids present. *)
Lemma applySavedOrder_repeated_id :
  let items := ["a"; "b"] in
  let savedOrder := ["a"; "b"; "a"] in
  let result := applySavedOrder (λ x : string, x) items savedOrder in
  NoDup ((λ x : string, x) <$> items)
  ∧ result = ["b"; "a"]
  ∧ (λ x : string, x) <$> filter (λ x, x ∈ savedOrder) result
    ≠ filter (.∈ (λ x : string, x) <$> items) savedOrder.
Proof.
  repeat split.
  - refine (bool_decide_unpack _ _). vm_compute. exact I.
  - vm_compute. discriminate.
Qed.

(** C9.  Applying the saved order a second time changes nothing. *)
Theorem applySavedOrder_idempotent :
  ∀ (T : Type) (id : T → string) (items : list T) (savedOrder : list string),
    applySavedOrder id (applySavedOrder id items savedOrder) savedOrder
    = applySavedOrder id items savedOrder.
Proof.
  intros T id items [|i order]; [done|].
  rewrite !applySavedOrder_cons.
  apply Array_sort_idempotent; [apply order_cmp_total|apply order_cmp_trans].
Qed.

(** C10.  Whatever the saved order holds, repeated or stale ids included,
    the result is a permutation of the input: the same entities, each as
    often as it was there, and as many of them. *)
Theorem applySavedOrder_permutation :
  ∀ (T : Type) (id : T → string) (items : list T) (savedOrder : list string),
    applySavedOrder id items savedOrder ≡ₚ items
    ∧ length (applySavedOrder id items savedOrder) = length items
    ∧ ∀ x, x ∈ applySavedOrder id items savedOrder ↔ x ∈ items.
Proof.
  intros T id items savedOrder.
  pose proof (applySavedOrder_perm id items savedOrder) as Hp.
  split; [done|]. split; [by rewrite Hp|]. intros x. by rewrite Hp.
Qed.

(** ** The persisted order store *)

Lemma JSON_stringify_truthy order : raw_truthy (JSON_stringify order) = true.
Proof. done. Qed.

Lemma read_order_returns ls key : ∃ v, read_order ls key = Normal v.
Proof.
  unfold read_order. destruct (ls !! key) as [raw|]; [|by eexists].
  destruct (raw_truthy raw); [|by eexists].
  destruct (JSON_parse raw); by eexists.
Qed.

Lemma read_order_unreadable ls key :
  unreadable ls key → read_order ls key = Normal (JArr []).
Proof.
  unfold unreadable, read_order. destruct (ls !! key) as [raw|]; [|done].
  intros [->|[e ->]]; [done|]. by destruct (raw_truthy raw).
Qed.

Lemma read_order_parsed ls key raw v :
  ls !! key = Some raw → raw ≠ EmptyString → JSON_parse raw = Normal v →
  read_order ls key = Normal v.
Proof.
  unfold read_order. intros -> Hraw ->.
  destruct raw; [done|]. done.
Qed.

Lemma read_order_written ls key order :
  read_order (<[key := JSON_stringify order]> ls) key = Normal (order_value order).
Proof.
  unfold read_order. rewrite lookup_insert_eq, JSON_stringify_truthy.
  by rewrite JSON_parse_stringify.
Qed.

(** X18.  The reads fail soft.  Neither read ever throws.  Each returns the
    empty sequence when nothing is stored under its key, when the stored text
    is empty and when [JSON.parse] rejects it.  A text that parses is
    returned as [JSON.parse] gave it: the sequence of identifiers that was
    written when the text comes from the matching write. *)
Theorem read_order_soft :
  ∀ (ls : Storage) (hostId : string),
    (∃ v, readHostOrder ls = Normal v)
    ∧ (∃ v, readInstanceOrder ls hostId = Normal v)
    ∧ (unreadable ls HOST_ORDER_KEY → readHostOrder ls = Normal (JArr []))
    ∧ (unreadable ls (INSTANCE_ORDER_KEY_PREFIX +:+ hostId) →
       readInstanceOrder ls hostId = Normal (JArr []))
    ∧ (∀ raw v, ls !! HOST_ORDER_KEY = Some raw → raw ≠ EmptyString →
         JSON_parse raw = Normal v → readHostOrder ls = Normal v)
    ∧ (∀ raw v, ls !! (INSTANCE_ORDER_KEY_PREFIX +:+ hostId) = Some raw → raw ≠ EmptyString →
         JSON_parse raw = Normal v → readInstanceOrder ls hostId = Normal v)
    ∧ (∀ order, readHostOrder (writeHostOrder order ls) = Normal (order_value order))
    ∧ (∀ order, readInstanceOrder (writeInstanceOrder hostId order ls) hostId
                = Normal (order_value order)).
Proof.
  intros ls hostId. unfold readHostOrder, readInstanceOrder, writeHostOrder, writeInstanceOrder.
  repeat split; eauto using read_order_returns, read_order_unreadable,
    read_order_parsed, read_order_written.
Qed.

Lemma read_order_soft_witness :
  unreadable {[HOST_ORDER_KEY := "[not json"]} HOST_ORDER_KEY
  ∧ readHostOrder {[HOST_ORDER_KEY := "[not json"]} = Normal (JArr []).
Proof.
  assert (unreadable {[HOST_ORDER_KEY := "[not json"]} HOST_ORDER_KEY) as Hu.
  { unfold unreadable. rewrite lookup_singleton_eq. right. eexists. vm_compute. reflexivity. }
  split; [exact Hu|].
  exact (proj1 (proj2 (proj2 (read_order_soft {[HOST_ORDER_KEY := "[not json"]} "h"))) Hu).
Defined.

(** C6.  The reads do not check what [JSON.parse] gave.  For a stored text
    that is JSON but no order the read yields the parsed value, here a number
    and an object: neither the empty sequence that the [try]/[catch] falls
    back to for data it cannot use, nor any sequence of identifiers, which is
    what the return type [string[]] of both reads announces. *)
Lemma read_order_not_a_sequence :
  let ls : Storage :=
    {[HOST_ORDER_KEY := "42"; INSTANCE_ORDER_KEY_PREFIX +:+ "h1" := "{}"]} in
  readHostOrder ls = Normal (JNum false 42 0)
  ∧ readInstanceOrder ls "h1" = Normal (JObj [])
  ∧ (∀ order, readHostOrder ls ≠ Normal (order_value order))
  ∧ (∀ order, readInstanceOrder ls "h1" ≠ Normal (order_value order)).
Proof.
  assert (readHostOrder
            {[HOST_ORDER_KEY := "42"; INSTANCE_ORDER_KEY_PREFIX +:+ "h1" := "{}"]}
          = Normal (JNum false 42 0)) as H1 by (by vm_compute).
  assert (readInstanceOrder
            {[HOST_ORDER_KEY := "42"; INSTANCE_ORDER_KEY_PREFIX +:+ "h1" := "{}"]} "h1"
          = Normal (JObj [])) as H2 by (by vm_compute).
  simpl. rewrite H1, H2. repeat split; intros order; discriminate.
Qed.

(** ** The refresh cycle *)

Section EngineFacts.
Context {World : Type} (client : solarClient.t World).

Lemma fetchInstances_snapshot hostsData w :
  (fetchInstances client hostsData w).1.1.1
  = zip_with (λ h r, {| host := h;
                        instances := match r with Normal l => l | Throw _ => [] end |})
      hostsData (instance_replies client hostsData w).
Proof.
  revert w. induction hostsData as [|h rest IH]; intros w; [done|].
  simpl. destruct (solarClient.getHostInstances client (host_id h) w) as [r w1].
  specialize (IH w1). destruct (fetchInstances client rest w1) as [[[out w2] calls] logs].
  simpl in IH. rewrite <-IH. by destruct r.
Qed.

Lemma fetchInstances_hosts hostsData w :
  host <$> (fetchInstances client hostsData w).1.1.1 = hostsData.
Proof.
  revert w. induction hostsData as [|h rest IH]; intros w; [done|].
  simpl. destruct (solarClient.getHostInstances client (host_id h) w) as [r w1].
  specialize (IH w1). destruct (fetchInstances client rest w1) as [[[out w2] calls] logs].
  simpl in IH. destruct r; csimpl; by rewrite IH.
Qed.

Lemma instance_replies_length hostsData w :
  length (instance_replies client hostsData w) = length hostsData.
Proof.
  revert w. induction hostsData as [|h rest IH]; intros w; [done|].
  simpl. destruct (solarClient.getHostInstances client (host_id h) w) as [r w1].
  simpl. by rewrite IH.
Qed.

Lemma fetchData_failure s w err w1 :
  solarClient.getHosts client w = (Throw err, w1) →
  fetchData client s w
  = (setLoading false (setError (Some (message_or "Failed to fetch data" err)) (setError None s)),
     w1, [CallGetHosts; ConsoleError "Failed to fetch hosts:"]).
Proof. unfold fetchData. by intros ->. Qed.

Lemma fetchData_success s w hostsData w1 :
  solarClient.getHosts client w = (Normal hostsData, w1) →
  (fetchData client s w).1.1
  = setLoading false (setHosts (fetchInstances client hostsData w1).1.1.1 (setError None s)).
Proof.
  unfold fetchData. intros ->.
  by destruct (fetchInstances client hostsData w1) as [[[out w2] calls] logs].
Qed.

Lemma fetchData_orders s w :
hostOrder (fetchData client s w).1.1 = hostOrder s
∧ instanceOrders (fetchData client s w).1.1 = instanceOrders s
∧ loading (fetchData client s w).1.1 = false.
Proof.
destruct (solarClient.getHosts client w) as [[hostsData|err] w1] eqn:Hget.
- by rewrite (fetchData_success s w hostsData w1 Hget).
- by rewrite (fetchData_failure s w err w1 Hget).
Qed.

(** Every refresh asks for the host list first. *)
Lemma fetchData_trace s w : head (fetchData client s w).2 = Some CallGetHosts.
Proof.
  unfold fetchData. destruct (solarClient.getHosts client w) as [[hostsData|err] w1]; [|done].
  by destruct (fetchInstances client hostsData w1) as [[[out w2] calls] logs].
Qed.

Lemma instance_action_failure call ev fallback s w err w1 :
  call w = (Throw err, w1) →
  instance_action client call ev fallback s w
  = (Throw (ErrorObject (message_or fallback err)), s, w1, [ev]).
Proof. unfold instance_action. by intros ->. Qed.

Lemma instance_action_success call ev fallback s w w1 :
  call w = (Normal (), w1) →
  instance_action client call ev fallback s w
  = (Normal (), (fetchData client s w1).1.1, (fetchData client s w1).1.2,
     ev :: (fetchData client s w1).2).
Proof.
  unfold instance_action. intros ->. by destruct (fetchData client s w1) as [[s' w2] evs].
Qed.

Lemma hook_action_unfold a hostId instanceId :
  hook_action client a hostId instanceId
  = instance_action client (adapter_call client a hostId instanceId)
      (action_event a hostId instanceId) (action_fallback a).
Proof. by destruct a. Qed.
End EngineFacts.

(** C2.  A refresh that cannot fetch the host list stores the failure's
    message (the fallback text for a failure that is no [Error]) as the last
    error and keeps the snapshot it had; one that can clears the last error
    and replaces the snapshot by the fetched hosts; both clear the loading
    flag and leave the orders alone. *)
Theorem fetchData_outcome :
  ∀ (World : Type) (client : solarClient.t World) (s : State) (w : World),
    let s' := (fetchData client s w).1.1 in
    loading s' = false
    ∧ hostOrder s' = hostOrder s
    ∧ instanceOrders s' = instanceOrders s
    ∧ (∀ err w1, solarClient.getHosts client w = (Throw err, w1) →
         error s' = Some (message_or "Failed to fetch data" err) ∧ hosts s' = hosts s)
    ∧ (∀ message w1, solarClient.getHosts client w = (Throw (ErrorObject message), w1) →
         error s' = Some message)
    ∧ (∀ hostsData w1, solarClient.getHosts client w = (Normal hostsData, w1) →
         error s' = None
         ∧ host <$> hosts s' = hostsData
         ∧ hosts s' = (fetchInstances client hostsData w1).1.1.1).
Proof.
  intros World client s w s'. subst s'.
  destruct (fetchData_orders client s w) as (Horder & Horders & Hloading).
  do 3 (split; [done|]). clear Horder Horders Hloading.
  destruct (solarClient.getHosts client w) as [[hostsData|err] w1] eqn:Hget.
  - rewrite (fetchData_success client s w hostsData w1 Hget). simpl.
    do 2 (split; [by intros ?? [=]|]).
    intros ?? [= <- <-]. split; [done|]. split; [|done].
    by rewrite fetchInstances_hosts.
  - rewrite (fetchData_failure client s w err w1 Hget). simpl.
    split; [by intros ?? [= <- <-]|].
    split; [by intros ?? [= -> ->]|]. by intros ?? [=].
Qed.

Lemma fetchData_outcome_witness :
  solarClient.getHosts offline_client () = (Throw (ErrorObject "Network Error"), ())
  ∧ error (fetchData offline_client
             (state_of [{| host := host_of "A" "online" None; instances := [] |}]) ()).1.1
    = Some "Network Error".
Proof.
  split; [reflexivity|].
  exact (proj1 (proj2 (proj2 (proj2 (proj2
    (fetchData_outcome unit offline_client
       (state_of [{| host := host_of "A" "online" None; instances := [] |}]) ())))))
    "Network Error" () eq_refl).
Defined.

(** C5.  Once the host list is fetched the refresh succeeds whatever the
    instance requests do: the last error stays unset, the snapshot lists the
    fetched hosts in their order, each with the instances its request
    returned, or with none when its request failed.  For hosts A and B with
    the request for B failing, A has its two instances and B has none. *)
Theorem fetchData_isolates_instance_failures :
  (∀ (World : Type) (client : solarClient.t World) (s : State) (w w1 : World)
     (hostsData : list Host),
    solarClient.getHosts client w = (Normal hostsData, w1) →
    let s' := (fetchData client s w).1.1 in
    let replies := instance_replies client hostsData w1 in
    error s' = None
    ∧ loading s' = false
    ∧ length (hosts s') = length hostsData
    ∧ ∀ i h r, hostsData !! i = Some h → replies !! i = Some r →
        hosts s' !! i
        = Some {| host := h; instances := match r with Normal l => l | Throw _ => [] end |})
  ∧ (let s' := (fetchData scenario_client
                  (state_of [{| host := host_of "old" "online" None; instances := [] |}]) ()).1.1 in
     error s' = None
     ∧ loading s' = false
     ∧ hosts s'
       = [ {| host := host_of "A" "online" None;
              instances := [instance_of "a1"; instance_of "a2"] |};
           {| host := host_of "B" "online" None; instances := [] |} ]).
Proof.
  split; [|by vm_compute].
  intros World client s w w1 hostsData Hget s' replies. subst s' replies.
  rewrite (fetchData_success client s w hostsData w1 Hget). simpl.
  rewrite fetchInstances_snapshot. do 2 (split; [done|]). split.
  - rewrite length_zip_with, instance_replies_length. lia.
  - intros i h r Hh Hr. rewrite lookup_zip_with, Hh. simpl. by rewrite Hr.
Qed.

Lemma fetchData_isolates_instance_failures_witness :
  solarClient.getHosts scenario_client ()
  = (Normal [host_of "A" "online" None; host_of "B" "online" None], ())
  ∧ error (fetchData scenario_client (state_of []) ()).1.1 = None.
Proof.
  split; [reflexivity|].
  exact (proj1 (proj1 fetchData_isolates_instance_failures unit scenario_client
                  (state_of []) () () _ eq_refl)).
Defined.

(** C4.  When the adapter action of start, stop or restart fails, the
    operation throws an [Error] with the adapter's message (the fallback text
    of the action for a failure that is no [Error]), no refresh runs and the
    state, the snapshot in it, is what it was; when the adapter action
    succeeds, the operation returns after a refresh has run on the state. *)
Theorem instance_action_outcome :
  ∀ (World : Type) (client : solarClient.t World) (a : action)
    (hostId instanceId : string) (s : State) (w : World),
    let reply := adapter_call client a hostId instanceId w in
    let result := hook_action client a hostId instanceId s w in
    (∀ err, reply.1 = Throw err →
       result = (Throw (ErrorObject (message_or (action_fallback a) err)), s, reply.2,
                 [action_event a hostId instanceId])
       ∧ ¬ refresh_invoked result.2
       ∧ hosts result.1.1.2 = hosts s)
    ∧ (∀ message, reply.1 = Throw (ErrorObject message) →
         result.1.1.1 = Throw (ErrorObject message))
    ∧ (reply.1 = Throw NotAnError →
         result.1.1.1 = Throw (ErrorObject (action_fallback a)))
    ∧ (reply.1 = Normal () →
         result = (Normal (), (fetchData client s reply.2).1.1, (fetchData client s reply.2).1.2,
                   action_event a hostId instanceId :: (fetchData client s reply.2).2)
         ∧ refresh_invoked result.2).
Proof.
  intros World client a hostId instanceId s w reply result. subst reply result.
  rewrite hook_action_unfold.
  destruct (adapter_call client a hostId instanceId w) as [[[]|err] w1] eqn:Hcall; simpl.
  - rewrite (instance_action_success client _ _ _ s w w1 Hcall).
    split; [by intros ? [=]|]. split; [by intros ? [=]|]. split; [by intros [=]|].
    intros _. split; [done|]. simpl.
    pose proof (fetchData_trace client s w1) as Hhead.
    unfold refresh_invoked. destruct (fetchData client s w1).2 as [|e evs]; [done|].
    simpl in Hhead. injection Hhead as ->. apply elem_of_cons. right. by left.
  - rewrite (instance_action_failure client _ _ _ s w err w1 Hcall).
    split; [|split; [|split]].
    + intros ? [= <-]. split; [done|]. split; [|done]. simpl. unfold refresh_invoked.
      intros Hin. apply list_elem_of_singleton in Hin. by destruct a.
    + by intros ? [= ->].
    + by intros [= ->].
    + by intros [=].
Qed.

Lemma instance_action_outcome_witness :
  (adapter_call scenario_client Start "h" "i" ()).1 = Throw (ErrorObject "connection refused")
  ∧ (hook_action scenario_client Start "h" "i" (state_of []) ()).1.1.1
    = Throw (ErrorObject "connection refused").
Proof.
  split; [reflexivity|].
  exact (proj1 (proj2 (instance_action_outcome unit scenario_client Start "h" "i" (state_of []) ()))
           "connection refused" eq_refl).
Defined.

(** ** The reorder controller *)

Lemma applySavedOrder_any_typed {T} (id : T → string) items prev :
  applySavedOrder_any id items (order_value prev) = Normal (applySavedOrder id items prev).
Proof.
  unfold applySavedOrder_any, applySavedOrder, order_value.
  rewrite length_map. destruct (length prev =? 0)%nat; [done|].
  by rewrite order_entries_any_strings.
Qed.

Lemma applySavedOrder_any_perm {T} (id : T → string) items v r :
  applySavedOrder_any id items v = Normal r → r ≡ₚ items.
Proof.
  destruct v as [| | | s|order|fields|arity|]; simpl; try done.
  - destruct (String.eqb s EmptyString); [|done]. by intros [= <-].
  - destruct (length order =? 0)%nat; intros [= <-]; [done|]. apply Array_sort_perm.
  - destruct (last _) as [[? [| |? m e| | | | |]]|]; try done.
    destruct (number_is_zero m e); [|done]. by intros [= <-].
  - destruct (arity =? 0)%N; [|done]. by intros [= <-].
Qed.

Lemma applySavedOrder_any_array {T} (id : T → string) items order :
  ∃ r, applySavedOrder_any id items (JArr order) = Normal r.
Proof. simpl. destruct (length order =? 0)%nat; by eexists. Qed.

Lemma indexOf_absent l x : x ∉ l → indexOf l x = -1.
Proof.
  induction l as [|y l IH]; simpl; [done|].
  intros [Hne Hin]%not_elem_of_cons.
  destruct (String.eqb_spec y x) as [->|_]; [done|]. by rewrite IH.
Qed.

Lemma indexOf_found l x i : NoDup l → l !! i = Some x → indexOf l x = Z.of_nat i.
Proof.
  intros Hnd. revert i. induction Hnd as [|y l Hy Hl IH]; intros i; [done|].
  destruct i as [|i]; simpl.
  - intros [= ->]. by rewrite String.eqb_refl.
  - intros Hi. destruct (String.eqb_spec y x) as [->|_].
    + destruct Hy. by eapply list_elem_of_lookup_2.
    + rewrite (IH i Hi). destruct (Z.eqb_spec (Z.of_nat i) (-1)); lia.
Qed.

Lemma swap_found l i j x y :
  l !! i = Some x → l !! j = Some y → swap l i j = <[j := x]> (<[i := y]> l).
Proof. unfold swap. by intros -> ->. Qed.

Lemma swap_lookup l i j x y :
  i ≠ j → l !! i = Some x → l !! j = Some y →
  swap l i j !! i = Some y
  ∧ swap l i j !! j = Some x
  ∧ ∀ k, k ≠ i → k ≠ j → swap l i j !! k = l !! k.
Proof.
  intros Hij Hi Hj. rewrite (swap_found l i j x y) by done.
  pose proof (lookup_lt_Some _ _ _ Hi). pose proof (lookup_lt_Some _ _ _ Hj).
  repeat split.
  - rewrite list_lookup_insert_ne by done. apply list_lookup_insert_eq. done.
  - apply list_lookup_insert_eq. by rewrite length_insert.
  - intros k Hki Hkj. by rewrite !list_lookup_insert_ne.
Qed.

Lemma moved_order_absent l x dir : x ∉ l → moved_order l x dir = None.
Proof. intros Hx. unfold moved_order. by rewrite indexOf_absent. Qed.

Lemma moved_order_boundary l x dir :
  NoDup l → at_boundary l x dir → moved_order l x dir = None.
Proof.
  intros Hnd Hb. unfold moved_order. destruct dir; simpl in Hb.
  - destruct l as [|y l]; [done|]. injection Hb as ->. simpl.
    by rewrite String.eqb_refl.
  - rewrite last_lookup in Hb. rewrite (indexOf_found l x _ Hnd Hb).
    pose proof (lookup_lt_Some _ _ _ Hb) as Hlt.
    destruct (Z.eqb_spec (Z.of_nat (Init.Nat.pred (length l))) (-1)); [lia|].
    destruct (Z.ltb_spec (Z.of_nat (Init.Nat.pred (length l)) + 1) 0); [lia|].
    destruct (Z.geb_spec (Z.of_nat (Init.Nat.pred (length l)) + 1) (Z.of_nat (length l)));
      [done|lia].
Qed.

Lemma moved_order_adjacent l x dir i j :
  NoDup l → l !! i = Some x → adjacent dir i j → (j < length l)%nat →
  moved_order l x dir = Some (swap l i j).
Proof.
  intros Hnd Hi Hadj Hj. unfold moved_order. rewrite (indexOf_found l x i Hnd Hi).
  destruct (Z.eqb_spec (Z.of_nat i) (-1)); [lia|].
  set (swapIdx := match dir with up => Z.of_nat i - 1 | down => Z.of_nat i + 1 end).
  assert (swapIdx = Z.of_nat j) as ->.
  { unfold swapIdx. destruct dir; simpl in Hadj; lia. }
  destruct (Z.ltb_spec (Z.of_nat j) 0); [lia|].
  destruct (Z.geb_spec (Z.of_nat j) (Z.of_nat (length l))); [lia|].
  simpl. by rewrite !Nat2Z.id.
Qed.

Lemma applySavedOrder_ids_NoDup (currentIds prev : list string) :
  NoDup currentIds → NoDup (applySavedOrder (λ x : string, x) currentIds prev).
Proof. intros H. by rewrite applySavedOrder_perm. Qed.

Lemma moveHost_typed hostId dir s ls prev :
  hostOrder s = order_value prev →
  moveHost hostId dir s ls
  = match moved_order (applySavedOrder (λ x : string, x) (id_of <$> hosts s) prev) hostId dir with
    | None => Normal (s, ls)
    | Some newOrder =>
      Normal (setHostOrder (order_value newOrder) s, writeHostOrder newOrder ls)
    end.
Proof.
  intros Hprev. unfold moveHost, full_order. by rewrite Hprev, applySavedOrder_any_typed.
Qed.

Lemma moveInstance_typed hostId instanceId dir s ls h prev :
  find (λ h, String.eqb (id_of h) hostId) (hosts s) = Some h →
  saved_instance_order (instanceOrders s) ls hostId = Normal (order_value prev) →
  moveInstance hostId instanceId dir s ls
  = match moved_order (applySavedOrder (λ x : string, x) (instance_id <$> instances h) prev)
            instanceId dir with
    | None => Normal (s, ls)
    | Some newOrder =>
      Normal (setInstanceOrders (<[hostId := newOrder]> (instanceOrders s)) s,
              writeInstanceOrder hostId newOrder ls)
    end.
Proof.
  intros Hfind Hsaved. unfold moveInstance, full_order.
  rewrite Hfind, Hsaved. cbn [bind]. by rewrite applySavedOrder_any_typed.
Qed.

Lemma Object_get_cached orders hostId order :
  orders !! hostId = Some order → Object_get orders hostId = Some (order_value order).
Proof. unfold Object_get. by intros ->. Qed.

Lemma saved_instance_order_cached orders ls hostId order :
  orders !! hostId = Some order →
  saved_instance_order orders ls hostId = Normal (order_value order).
Proof. intros H. unfold saved_instance_order. by rewrite (Object_get_cached _ _ order). Qed.

Lemma saved_instance_order_missing orders ls hostId :
  Object_get orders hostId = None →
  saved_instance_order orders ls hostId = readInstanceOrder ls hostId.
Proof. unfold saved_instance_order. by intros ->. Qed.

Lemma saved_instance_order_inherited orders ls hostId v :
  orders !! hostId = None → Object_prototype !! hostId = Some v →
  saved_instance_order orders ls hostId = Normal v.
Proof. intros Hown Hv. unfold saved_instance_order, Object_get. by rewrite Hown, Hv. Qed.

Lemma stored_under_insert key newOrder ls :
  stored_under key newOrder ls (<[key := JSON_stringify newOrder]> ls).
Proof.
  split; [apply lookup_insert_eq|]. intros key' Hne. by apply lookup_insert_ne.
Qed.

Lemma host_order_cached_intro newOrder s :
  host_order_cached newOrder s (setHostOrder (order_value newOrder) s).
Proof. done. Qed.

Lemma instance_order_cached_intro hostId newOrder s :
  instance_order_cached hostId newOrder s
    (setInstanceOrders (<[hostId := newOrder]> (instanceOrders s)) s).
Proof.
  split; [apply lookup_insert_eq|]. split; [|done].
  intros hostId' Hne. simpl. by apply lookup_insert_ne.
Qed.

(** C7.  Once the effective order of the siblings is computed, [moveHost]
    and [moveInstance] return the state and the store exactly as they were,
    so nothing is written, when the target is not among the current siblings
    (for [moveInstance] also when the host itself is gone) and when, ids
    being unique, the target is the first entity moved up or the last one
    moved down. *)
Theorem move_noop :
  ∀ (s : State) (ls : Storage) (hostId instanceId : string) (dir : direction),
    (∀ fullOrder,
       let currentIds := id_of <$> hosts s in
       full_order currentIds (hostOrder s) = Normal fullOrder →
       hostId ∉ currentIds ∨ (NoDup currentIds ∧ at_boundary fullOrder hostId dir) →
       moveHost hostId dir s ls = Normal (s, ls))
    ∧ (find (λ h, String.eqb (id_of h) hostId) (hosts s) = None →
       moveInstance hostId instanceId dir s ls = Normal (s, ls))
    ∧ (∀ h fullOrder,
       find (λ h, String.eqb (id_of h) hostId) (hosts s) = Some h →
       let currentIds := instance_id <$> instances h in
       bind (saved_instance_order (instanceOrders s) ls hostId) (full_order currentIds)
       = Normal fullOrder →
       instanceId ∉ currentIds ∨ (NoDup currentIds ∧ at_boundary fullOrder instanceId dir) →
       moveInstance hostId instanceId dir s ls = Normal (s, ls)).
Proof.
  intros s ls hostId instanceId dir. split; [|split].
  - intros fullOrder currentIds Hfull Hcase. unfold moveHost.
    change (map id_of (hosts s)) with currentIds. rewrite Hfull. cbn [bind].
    pose proof (applySavedOrder_any_perm _ _ _ _ Hfull) as Hperm.
    destruct Hcase as [Habs|[Hnd Hb]].
    + rewrite moved_order_absent; [done|]. by rewrite Hperm.
    + rewrite moved_order_boundary; [done| |done]. by rewrite Hperm.
  - intros Hfind. unfold moveInstance. by rewrite Hfind.
  - intros h fullOrder Hfind currentIds Hfull Hcase. unfold moveInstance.
    rewrite Hfind. change (map instance_id (instances h)) with currentIds.
    destruct (saved_instance_order (instanceOrders s) ls hostId) as [saved|]; [|done].
    cbn [bind] in *. rewrite Hfull. cbn [bind].
    pose proof (applySavedOrder_any_perm _ _ _ _ Hfull) as Hperm.
    destruct Hcase as [Habs|[Hnd Hb]].
    + rewrite moved_order_absent; [done|]. by rewrite Hperm.
    + rewrite moved_order_boundary; [done| |done]. by rewrite Hperm.
Qed.

Lemma move_noop_witness :
  let s := state_of [ {| host := host_of "h1" "online" None; instances := [] |};
                      {| host := host_of "h2" "online" None; instances := [] |} ] in
  full_order (id_of <$> hosts s) (hostOrder s) = Normal ["h1"; "h2"]
  ∧ (NoDup (id_of <$> hosts s) ∧ at_boundary ["h1"; "h2"] "h2" down)
  ∧ moveHost "h2" down s ∅ = Normal (s, ∅).
Proof.
  intros s.
  assert (NoDup (id_of <$> hosts s) ∧ at_boundary ["h1"; "h2"] "h2" down) as Hcase.
  { split; [|reflexivity]. refine (bool_decide_unpack _ _). vm_compute. exact I. }
  split; [reflexivity|]. split; [exact Hcase|].
  exact (proj1 (move_noop s ∅ "h2" "i" down) ["h1"; "h2"] eq_refl (or_intror Hcase)).
Defined.

Lemma effective_order_intro currentIds prev :
  effective_order currentIds prev (applySavedOrder (λ x : string, x) currentIds prev).
Proof.
  split; [done|]. split; [apply applySavedOrder_perm|]. split.
  - apply (applySavedOrder_unknown (λ x : string, x)).
  - apply (applySavedOrder_known_first (λ x : string, x)).
Qed.

Lemma swapped_intro l x i j :
  i ≠ j → l !! i = Some x → (j < length l)%nat → swapped l x i j (swap l i j).
Proof.
  intros Hij Hi Hj. destruct (lookup_lt_is_Some_2 l j Hj) as [y Hy].
  destruct (swap_lookup l i j x y Hij Hi Hy) as (H1 & H2 & H3).
  unfold swapped. rewrite H1, H2, Hy. repeat split; [done|].
  rewrite (swap_found l i j x y) by done. by rewrite !length_insert.
Qed.

Lemma adjacent_ne dir i j : adjacent dir i j → i ≠ j.
Proof. destruct dir; simpl; lia. Qed.

(** C8.  A move that finds its target at position [i] of the effective
    order, with the neighbouring position [j] inside it, works on the full
    effective order of the current siblings (the saved order applied to them,
    entities not saved yet at the tail), exchanges the two positions, writes
    the resulting full order to the store, where a read finds it again, and
    makes it the cached order; the store changes under that one key only and
    the state in that one order only.  Moving i2 up within the order
    [i1, i2, i3] stores [i2, i1, i3]. *)
Theorem move_swaps_and_persists :
  (∀ (s : State) (ls : Storage) (hostId : string) (dir : direction)
     (prev : list string) (i j : nat),
    hostOrder s = order_value prev →
    let currentIds := id_of <$> hosts s in
    let fullOrder := applySavedOrder (λ x : string, x) currentIds prev in
    NoDup currentIds →
    fullOrder !! i = Some hostId → adjacent dir i j → (j < length fullOrder)%nat →
    ∃ newOrder s' ls',
      moveHost hostId dir s ls = Normal (s', ls')
      ∧ effective_order currentIds prev fullOrder
      ∧ swapped fullOrder hostId i j newOrder
      ∧ stored_under HOST_ORDER_KEY newOrder ls ls'
      ∧ readHostOrder ls' = Normal (order_value newOrder)
      ∧ host_order_cached newOrder s s')
  ∧ (∀ (s : State) (ls : Storage) (hostId instanceId : string) (dir : direction)
       (h : HostWithInstances) (prev : list string) (i j : nat),
    find (λ h, String.eqb (id_of h) hostId) (hosts s) = Some h →
    saved_instance_order (instanceOrders s) ls hostId = Normal (order_value prev) →
    let currentIds := instance_id <$> instances h in
    let fullOrder := applySavedOrder (λ x : string, x) currentIds prev in
    NoDup currentIds →
    fullOrder !! i = Some instanceId → adjacent dir i j → (j < length fullOrder)%nat →
    ∃ newOrder s' ls',
      moveInstance hostId instanceId dir s ls = Normal (s', ls')
      ∧ effective_order currentIds prev fullOrder
      ∧ swapped fullOrder instanceId i j newOrder
      ∧ stored_under (INSTANCE_ORDER_KEY_PREFIX +:+ hostId) newOrder ls ls'
      ∧ readInstanceOrder ls' hostId = Normal (order_value newOrder)
      ∧ instance_order_cached hostId newOrder s s'
      ∧ saved_instance_order (instanceOrders s') ls' hostId = Normal (order_value newOrder))
  ∧ (∃ s',
      moveInstance "h" "i2" up (state_of [scenario_host]) scenario_store
      = Normal (s', writeInstanceOrder "h" ["i2"; "i1"; "i3"] scenario_store)
      ∧ instanceOrders s' !! "h" = Some ["i2"; "i1"; "i3"]
      ∧ readInstanceOrder (writeInstanceOrder "h" ["i2"; "i1"; "i3"] scenario_store) "h"
        = Normal (order_value ["i2"; "i1"; "i3"])
      ∧ writeInstanceOrder "h" ["i2"; "i1"; "i3"] scenario_store !! "solar_instance_order_h"
        = Some (string_of_list_ascii
                  ["["; dquote; "i"; "2"; dquote; ","; dquote; "i"; "1"; dquote; ",";
                   dquote; "i"; "3"; dquote; "]"]%char)).
Proof.
  split; [|split].
  - intros s ls hostId dir prev i j Hprev currentIds fullOrder Hnd Hi Hadj Hj.
    exists (swap fullOrder i j), (setHostOrder (order_value (swap fullOrder i j)) s),
      (writeHostOrder (swap fullOrder i j) ls).
    split; [|split; [|split; [|split; [|split]]]].
    + rewrite (moveHost_typed _ _ _ _ prev Hprev). fold currentIds fullOrder.
      rewrite (moved_order_adjacent fullOrder hostId dir i j); [done| |done..].
      by apply applySavedOrder_ids_NoDup.
    + apply effective_order_intro.
    + apply swapped_intro; [by eapply adjacent_ne|done..].
    + apply stored_under_insert.
    + apply read_order_written.
    + apply host_order_cached_intro.
  - intros s ls hostId instanceId dir h prev i j Hfind Hsaved currentIds fullOrder Hnd Hi Hadj Hj.
    exists (swap fullOrder i j),
      (setInstanceOrders (<[hostId := swap fullOrder i j]> (instanceOrders s)) s),
      (writeInstanceOrder hostId (swap fullOrder i j) ls).
    split; [|split; [|split; [|split; [|split; [|split]]]]].
    + rewrite (moveInstance_typed _ _ _ _ _ h prev Hfind Hsaved). fold currentIds fullOrder.
      rewrite (moved_order_adjacent fullOrder instanceId dir i j); [done| |done..].
      by apply applySavedOrder_ids_NoDup.
    + apply effective_order_intro.
    + apply swapped_intro; [by eapply adjacent_ne|done..].
    + apply stored_under_insert.
    + apply read_order_written.
    + apply instance_order_cached_intro.
    + apply saved_instance_order_cached. simpl. apply lookup_insert_eq.
  - eexists. split; [|split; [|split]].
    + vm_compute. reflexivity.
    + vm_compute. reflexivity.
    + vm_compute. reflexivity.
    + vm_compute. reflexivity.
Qed.

Lemma move_swaps_and_persists_witness :
  let s := state_of [scenario_host] in
  (find (λ h, String.eqb (id_of h) "h") (hosts s) = Some scenario_host
   ∧ saved_instance_order (instanceOrders s) scenario_store "h"
     = Normal (order_value ["i1"; "i2"; "i3"])
   ∧ NoDup (instance_id <$> instances scenario_host)
   ∧ applySavedOrder (λ x : string, x) (instance_id <$> instances scenario_host)
       ["i1"; "i2"; "i3"] !! 1%nat = Some "i2"
   ∧ adjacent up 1 0
   ∧ (0 < length (applySavedOrder (λ x : string, x)
                    (instance_id <$> instances scenario_host) ["i1"; "i2"; "i3"]))%nat)
  ∧ ∃ newOrder s' ls',
      moveInstance "h" "i2" up s scenario_store = Normal (s', ls')
      ∧ effective_order (instance_id <$> instances scenario_host) ["i1"; "i2"; "i3"]
          (applySavedOrder (λ x : string, x) (instance_id <$> instances scenario_host)
             ["i1"; "i2"; "i3"])
      ∧ swapped (applySavedOrder (λ x : string, x) (instance_id <$> instances scenario_host)
                   ["i1"; "i2"; "i3"]) "i2" 1 0 newOrder
      ∧ stored_under (INSTANCE_ORDER_KEY_PREFIX +:+ "h") newOrder scenario_store ls'
      ∧ readInstanceOrder ls' "h" = Normal (order_value newOrder)
      ∧ instance_order_cached "h" newOrder s s'
      ∧ saved_instance_order (instanceOrders s') ls' "h" = Normal (order_value newOrder).
Proof.
  intros s.
  assert (find (λ h, String.eqb (id_of h) "h") (hosts s) = Some scenario_host) as H1
    by reflexivity.
  assert (saved_instance_order (instanceOrders s) scenario_store "h"
          = Normal (order_value ["i1"; "i2"; "i3"])) as H2 by (vm_compute; reflexivity).
  assert (NoDup (instance_id <$> instances scenario_host)) as H3.
  { refine (bool_decide_unpack _ _). vm_compute. exact I. }
  assert (applySavedOrder (λ x : string, x) (instance_id <$> instances scenario_host)
            ["i1"; "i2"; "i3"] !! 1%nat = Some "i2") as H4 by (vm_compute; reflexivity).
  assert (adjacent up 1 0) as H5 by reflexivity.
  assert (0 < length (applySavedOrder (λ x : string, x)
                        (instance_id <$> instances scenario_host) ["i1"; "i2"; "i3"]))%nat
    as H6 by (vm_compute; lia).
  split; [by repeat split|].
  exact (proj1 (proj2 move_swaps_and_persists) s scenario_store "h" "i2" up scenario_host
           ["i1"; "i2"; "i3"] 1%nat 0%nat H1 H2 H3 H4 H5 H6).
Defined.

(** ** The effective view *)

Lemma map_completion_Forall2 {A B} (f : A → completion B) l rs :
  map_completion f l = Normal rs → Forall2 (λ x y, f x = Normal y) l rs.
Proof.
  revert rs. induction l as [|x l IH]; intros rs; simpl.
  { intros [= <-]. constructor. }
  destruct (f x) as [y|] eqn:Hy; [|done]. simpl.
  destruct (map_completion f l) as [ys|]; [|done]. simpl.
  intros [= <-]. constructor; [done|]. by apply IH.
Qed.

Lemma map_completion_returns {A B} (f : A → completion B) l :
  (∀ x, x ∈ l → ∃ y, f x = Normal y) → ∃ rs, map_completion f l = Normal rs.
Proof.
  induction l as [|x l IH]; intros Hall; simpl; [by eexists|].
  destruct (Hall x) as [y ->]; [by left|].
  destruct IH as [ys ->]; [intros z Hz; apply Hall; by right|].
  by eexists.
Qed.

Lemma merge_host_shown hostStatuses orders ls h r :
  merge_host hostStatuses orders ls h = Normal r → shown_as hostStatuses orders ls h r.
Proof.
  unfold merge_host, shown_as.
  destruct (saved_instance_order orders ls (id_of h)) as [saved|] eqn:Hsaved; [|done].
  cbn [bind].
  assert (instances (overlay_host hostStatuses h) = instances h) as Hinst.
  { unfold overlay_host. by destruct (hostStatuses ≫= _). }
  rewrite Hinst.
  destruct (applySavedOrder_any instance_id (instances h) saved) as [sorted|] eqn:Hsorted;
    [|done].
  cbn [bind]. intros [= <-]. simpl.
  apply applySavedOrder_any_perm in Hsorted.
  unfold overlay_host, memory_or.
  destruct (hostStatuses ≫= _) as [entry|]; simpl; repeat split; done.
Qed.

Lemma mergedHosts_returns s hostStatuses ls :
  orders_are_arrays s ls → ∃ view, mergedHosts s hostStatuses ls = Normal view.
Proof.
  intros [[order Horder] Hinst]. unfold mergedHosts.
  destruct (map_completion_returns
              (merge_host hostStatuses (instanceOrders s) ls) (hosts s)) as [merged ->].
  { intros h Hh. destruct (Hinst h Hh) as [l Hl]. unfold merge_host. rewrite Hl.
    cbn [bind].
    destruct (applySavedOrder_any_array instance_id
                (instances (overlay_host hostStatuses h)) l) as [r ->].
    by eexists. }
  cbn [bind]. rewrite Horder. apply applySavedOrder_any_array.
Qed.

(** C3, as the code has it.  When every saved order in use is an array the
    effective view exists; it is the merged hosts put in host order, one
    merged host for each canonical host.  An overlay entry for the host's id
    gives the merged host its status, and its memory when the entry carries
    one that is truthy; otherwise the canonical memory stays.  Without an
    entry status and memory are the canonical ones.  Id, name and the other
    data are the canonical ones in both cases, and the instances are the
    canonical instances put in their saved order. *)
Theorem mergedHosts_overlay :
  ∀ (s : State) (hostStatuses : option (gmap string HostStatus)) (ls : Storage),
    (orders_are_arrays s ls → ∃ view, mergedHosts s hostStatuses ls = Normal view)
    ∧ (∀ view, mergedHosts s hostStatuses ls = Normal view →
       ∃ merged,
         Forall2 (shown_as hostStatuses (instanceOrders s) ls) (hosts s) merged
         ∧ applySavedOrder_any id_of merged (hostOrder s) = Normal view
         ∧ view ≡ₚ merged).
Proof.
  intros s hostStatuses ls. split; [apply mergedHosts_returns|].
  unfold mergedHosts.
  - intros view.
    destruct (map_completion _ (hosts s)) as [merged|] eqn:Hmap; [|done].
    cbn [bind]. intros Hview. exists merged. split; [|split; [done|]].
    + apply map_completion_Forall2 in Hmap.
      eapply Forall2_impl; [exact Hmap|]. intros h r. apply merge_host_shown.
    + by eapply applySavedOrder_any_perm.
Qed.

Lemma mergedHosts_overlay_witness :
  orders_are_arrays (state_of [overlaid_host]) ∅
  ∧ ∃ view, mergedHosts (state_of [overlaid_host]) (Some {[ "H" := overlay_entry ]}) ∅
            = Normal view.
Proof.
  assert (orders_are_arrays (state_of [overlaid_host]) ∅) as Harr.
  { split; [by eexists|]. intros h Hh. exists []. apply list_elem_of_singleton in Hh.
    subst h. reflexivity. }
  split; [exact Harr|].
  exact (proj1 (mergedHosts_overlay (state_of [overlaid_host])
                  (Some {[ "H" := overlay_entry ]}) ∅) Harr).
Defined.

(** C3 as stated fails for an overlay entry that carries no memory, and for
    a host with a saved instance order: the view shows the status of the
    entry, but the canonical memory, not the entry's, and the instances in
    their saved order, not as the snapshot has them. *)
Lemma mergedHosts_keeps_memory :
  let ls := writeInstanceOrder "H" ["i2"; "i1"] ∅ in
  ∃ shown,
    mergedHosts (state_of [overlaid_host]) (Some {[ "H" := overlay_entry ]}) ls = Normal [shown]
    ∧ host_status (host shown) = ws_status overlay_entry
    ∧ host_memory (host shown) = host_memory (host overlaid_host)
    ∧ host_memory (host shown) ≠ ws_memory overlay_entry
    ∧ instances shown = [instance_of "i2"; instance_of "i1"]
    ∧ instances shown ≠ instances overlaid_host.
Proof.
  eexists. split; [vm_compute; reflexivity|]. simpl. repeat split; discriminate.
Qed.

(** ** The orders stay sequences of ids

    The statements above about the reorder controller and the effective view
    ask for saved orders that are arrays.  The host order is one in every
    state the hook reaches from a store that holds only what the hook wrote.
    The instance order of a host is one there too, unless nothing is cached
    for the host and its id names a member of [Object.prototype], which the
    read of the cache then finds. *)

Lemma host_key_ne_instance_key hostId :
  HOST_ORDER_KEY ≠ INSTANCE_ORDER_KEY_PREFIX +:+ hostId.
Proof. unfold HOST_ORDER_KEY, INSTANCE_ORDER_KEY_PREFIX. simpl. discriminate. Qed.

Lemma hook_store_empty : hook_store ∅.
Proof. intros key raw. by rewrite lookup_empty. Qed.

Lemma hook_store_insert ls key order :
  hook_store ls → hook_store (<[key := JSON_stringify order]> ls).
Proof.
  intros Hls key' raw. rewrite lookup_insert. case_decide.
  - intros [= <-]. by eexists.
  - apply Hls.
Qed.

Lemma hook_store_read ls key :
  hook_store ls → ∃ order, read_order ls key = Normal (order_value order).
Proof.
  intros Hls. unfold read_order. destruct (ls !! key) as [raw|] eqn:Hraw.
  - destruct (Hls key raw Hraw) as [order ->].
    rewrite JSON_stringify_truthy, JSON_parse_stringify. by eexists.
  - by exists [].
Qed.

Lemma hook_store_saved_instance_order orders ls hostId :
  hook_store ls → no_inherited_order orders hostId →
  ∃ order, saved_instance_order orders ls hostId = Normal (order_value order).
Proof.
  intros Hls Hplain. unfold saved_instance_order, Object_get.
  destruct (orders !! hostId) as [order|] eqn:Hown; [by eexists|].
  destruct Hplain as [[order Horder]|Hnone]; [congruence|].
  rewrite Hnone. by apply hook_store_read.
Qed.

Lemma no_inherited_order_insert orders hostId hostId' order :
  no_inherited_order orders hostId' → no_inherited_order (<[hostId := order]> orders) hostId'.
Proof.
  intros [Hown|Hplain]; [left|by right].
  rewrite lookup_insert. by case_decide.
Qed.

Lemma typed_orders_arrays s ls :
  typed_orders s ls →
  (∀ h, h ∈ hosts s → no_inherited_order (instanceOrders s) (id_of h)) →
  orders_are_arrays s ls.
Proof.
  intros [Hls [prev Hprev]] Hplain. split.
  - rewrite Hprev. by eexists.
  - intros h Hh.
    destruct (hook_store_saved_instance_order (instanceOrders s) ls (id_of h) Hls) as [order ->];
      [by apply Hplain|].
    by eexists.
Qed.

(** X2.  The hook keeps its orders well formed.  From a store that holds
    only orders the hook wrote, the initial state exists and its orders are
    sequences of ids; [moveHost] always returns and keeps that, and so does
    [moveInstance] for a host id under which the cache read finds an own
    order or nothing; a refresh and the three actions keep it; and the
    effective view can be computed when that holds of the id of every host
    in the snapshot, that is when no host without a cached order is named
    like a member of [Object.prototype]. *)
Theorem typed_orders_invariant :
  (∀ ls, hook_store ls → ∃ s0, initial_state ls = Normal s0 ∧ typed_orders s0 ls)
  ∧ (∀ s ls hostId dir, typed_orders s ls →
       ∃ s' ls', moveHost hostId dir s ls = Normal (s', ls') ∧ typed_orders s' ls')
  ∧ (∀ s ls hostId instanceId dir, typed_orders s ls →
       no_inherited_order (instanceOrders s) hostId →
       ∃ s' ls', moveInstance hostId instanceId dir s ls = Normal (s', ls')
                 ∧ typed_orders s' ls'
                 ∧ ∀ hostId', no_inherited_order (instanceOrders s) hostId' →
                              no_inherited_order (instanceOrders s') hostId')
  ∧ (∀ World (client : solarClient.t World) s ls w, typed_orders s ls →
       typed_orders (fetchData client s w).1.1 ls)
  ∧ (∀ World (client : solarClient.t World) a hostId instanceId s ls w, typed_orders s ls →
       typed_orders (hook_action client a hostId instanceId s w).1.1.2 ls)
  ∧ (∀ s ls hostStatuses, typed_orders s ls →
       (∀ h, h ∈ hosts s → no_inherited_order (instanceOrders s) (id_of h)) →
       ∃ view, mergedHosts s hostStatuses ls = Normal view).
Proof.
  split; [|split; [|split; [|split; [|split]]]].
  - intros ls Hls. unfold initial_state, readHostOrder.
    destruct (hook_store_read ls HOST_ORDER_KEY Hls) as [order ->].
    cbn [bind]. eexists. split; [done|]. split; [done|]. by eexists.
  - intros s ls hostId dir [Hls [prev Hprev]].
    rewrite (moveHost_typed _ _ _ _ prev Hprev).
    destruct (moved_order _ hostId dir) as [newOrder|].
    + eexists _, _. split; [done|]. split.
      * by apply hook_store_insert.
      * by eexists.
    + eexists _, _. split; [done|]. split; [done|]. by eexists.
  - intros s ls hostId instanceId dir [Hls [prev Hprev]] Hplain.
    destruct (find (λ h, String.eqb (id_of h) hostId) (hosts s)) as [h|] eqn:Hfind.
    + destruct (hook_store_saved_instance_order (instanceOrders s) ls hostId Hls Hplain)
        as [saved Hsaved].
      rewrite (moveInstance_typed _ _ _ _ _ h saved Hfind Hsaved).
      destruct (moved_order _ instanceId dir) as [newOrder|].
      * eexists _, _. split; [done|]. split; [split|].
        -- by apply hook_store_insert.
        -- by eexists.
        -- intros hostId'. apply no_inherited_order_insert.
      * eexists _, _. split; [done|]. split; [|done]. split; [done|]. by eexists.
    + unfold moveInstance. rewrite Hfind. eexists _, _. split; [done|].
      split; [|done]. split; [done|]. by eexists.
  - intros World client s ls w [Hls [prev Hprev]]. split; [done|].
    destruct (fetchData_orders client s w) as (-> & _). by eexists.
  - intros World client a hostId instanceId s ls w [Hls [prev Hprev]]. split; [done|].
    rewrite hook_action_unfold. unfold instance_action.
    destruct (adapter_call client a hostId instanceId w) as [[[]|err] w1].
    + destruct (fetchData_orders client s w1) as (Ho & _).
      destruct (fetchData client s w1) as [[s' w2] evs]. simpl in *.
      rewrite Ho. by eexists.
    + simpl. by eexists.
  - intros s ls hostStatuses Hty Hplain.
    by apply mergedHosts_returns, typed_orders_arrays.
Qed.

(** * Further properties of the hook and of the tables that use it *)

(** ** The keys of the store *)

Lemma instance_key_inj hostId hostId' :
  INSTANCE_ORDER_KEY_PREFIX +:+ hostId = INSTANCE_ORDER_KEY_PREFIX +:+ hostId' →
  hostId = hostId'.
Proof. unfold INSTANCE_ORDER_KEY_PREFIX. simpl. intros H. by simplify_eq. Qed.

Lemma read_order_insert_ne ls key key' raw :
  key ≠ key' → read_order (<[key := raw]> ls) key' = read_order ls key'.
Proof. intros Hne. unfold read_order. by rewrite lookup_insert_ne. Qed.

(** X1.  The orders never collide in the store: writing the instance order
    of a host changes neither the host order read back nor the instance
    order of any other host, and writing the host order changes no instance
    order. *)
Theorem order_keys_isolated :
  ∀ (ls : Storage) (hostId hostId' : string) (order : list string),
    readHostOrder (writeInstanceOrder hostId order ls) = readHostOrder ls
    ∧ readInstanceOrder (writeHostOrder order ls) hostId = readInstanceOrder ls hostId
    ∧ (hostId ≠ hostId' →
       readInstanceOrder (writeInstanceOrder hostId order ls) hostId'
       = readInstanceOrder ls hostId').
Proof.
  intros ls hostId hostId' order.
  unfold readHostOrder, readInstanceOrder, writeHostOrder, writeInstanceOrder.
  split; [|split].
  - apply read_order_insert_ne. intros H. by eapply host_key_ne_instance_key.
  - apply read_order_insert_ne, host_key_ne_instance_key.
  - intros Hne. apply read_order_insert_ne. intros H. by apply Hne, instance_key_inj.
Qed.

Lemma order_keys_isolated_witness :
  "h1" ≠ "h2"
  ∧ readInstanceOrder (writeInstanceOrder "h1" ["b"; "a"] scenario_store) "h2"
    = readInstanceOrder scenario_store "h2".
Proof.
  assert ("h1" ≠ "h2") as Hne by discriminate.
  split; [exact Hne|].
  exact (proj2 (proj2 (order_keys_isolated scenario_store "h1" "h2" ["b"; "a"])) Hne).
Defined.

(** ** A store the hook did not write *)

Lemma typed_orders_invariant_witness :
  hook_store scenario_store
  ∧ ∃ s0, initial_state scenario_store = Normal s0 ∧ typed_orders s0 scenario_store.
Proof.
  assert (hook_store scenario_store) as Hls.
  { unfold scenario_store, writeInstanceOrder. apply hook_store_insert, hook_store_empty. }
  split; [exact Hls|].
  exact (proj1 typed_orders_invariant scenario_store Hls).
Defined.

Lemma applySavedOrder_any_no_order {T} (id : T → string) items v :
  no_order v → applySavedOrder_any id items v = Throw TypeError.
Proof.
  destruct v as [| | |s| |fields|arity|]; simpl; try done.
  - intros Hs. by destruct (String.eqb_spec s EmptyString).
  - destruct (last _) as [[? [| |? m e| | | | |]]|]; try done. by intros ->.
  - intros Hn. by destruct (N.eqb_spec arity 0).
Qed.

Lemma applySavedOrder_any_throws {T} (id : T → string) items v e :
  applySavedOrder_any id items v = Throw e → e = TypeError.
Proof.
  destruct v as [| | |s|order|fields|arity|]; simpl; try by intros [= <-].
  - destruct (String.eqb s EmptyString); [done|]. by intros [= <-].
  - by destruct (length order =? 0)%nat.
  - destruct (last _) as [[? [| |? m e'| | | | |]]|]; try by intros [= <-].
    destruct (number_is_zero m e'); [done|]. by intros [= <-].
  - destruct (arity =? 0)%N; [done|]. by intros [= <-].
Qed.

Lemma saved_instance_order_returns orders ls hostId :
  ∃ v, saved_instance_order orders ls hostId = Normal v.
Proof.
  unfold saved_instance_order. destruct (Object_get orders hostId); [by eexists|].
  apply read_order_returns.
Qed.

Lemma map_merge_host_throws hostStatuses orders ls hs e :
  map_completion (merge_host hostStatuses orders ls) hs = Throw e → e = TypeError.
Proof.
  induction hs as [|h hs IH]; simpl; [done|].
  unfold merge_host at 1.
  destruct (saved_instance_order_returns orders ls (id_of h)) as [saved ->]. cbn [bind].
  destruct (applySavedOrder_any instance_id _ saved) as [sorted|e'] eqn:Hs; cbn [bind].
  - destruct (map_completion _ hs) as [rs|e'']; cbn [bind]; [done|].
    intros [= <-]. by apply IH.
  - intros [= <-]. by eapply applySavedOrder_any_throws.
Qed.

Lemma mergedHosts_no_order s hostStatuses ls :
  no_order (hostOrder s) → mergedHosts s hostStatuses ls = Throw TypeError.
Proof.
  intros Hno. unfold mergedHosts.
  destruct (map_completion _ (hosts s)) as [merged|e] eqn:Hmap; cbn [bind].
  - by apply applySavedOrder_any_no_order.
  - f_equal. by eapply map_merge_host_throws.
Qed.

Lemma moveHost_no_order hostId dir s ls :
  no_order (hostOrder s) → moveHost hostId dir s ls = Throw TypeError.
Proof.
  intros Hno. unfold moveHost, full_order.
  by rewrite applySavedOrder_any_no_order.
Qed.

(** X3.  A host order in the store that parses to something other than an
    array (null, a boolean, a number, a non-empty string, an object whose
    length is not 0) is taken as the initial host order as it is.  From then
    on the effective view throws a TypeError, on the first render and after
    every refresh, and so does moveHost: the soft failure of the read does
    not cover it. *)
Theorem corrupt_host_order_breaks_view :
  ∀ (ls : Storage) (raw : string) (v : jsval),
    ls !! HOST_ORDER_KEY = Some raw → raw ≠ EmptyString →
    JSON_parse raw = Normal v → no_order v →
    ∃ s0, initial_state ls = Normal s0
      ∧ hostOrder s0 = v
      ∧ ∀ (World : Type) (client : solarClient.t World) (w : World)
          (hostStatuses : option (gmap string HostStatus)) (hostId : string) (dir : direction),
          mergedHosts s0 hostStatuses ls = Throw TypeError
          ∧ mergedHosts (fetchData client s0 w).1.1 hostStatuses ls = Throw TypeError
          ∧ moveHost hostId dir (fetchData client s0 w).1.1 ls = Throw TypeError.
Proof.
  intros ls raw v Hraw Hne Hparse Hno.
  unfold initial_state, readHostOrder.
  rewrite (read_order_parsed ls HOST_ORDER_KEY raw v Hraw Hne Hparse). cbn [bind].
  eexists. split; [done|]. split; [done|].
  intros World client w hostStatuses hostId dir.
  destruct (fetchData_orders client
    {| hosts := []; loading := true; error := None; hostOrder := v; instanceOrders := ∅ |} w)
    as (Ho & _).
  split; [by apply mergedHosts_no_order|].
  split; [apply mergedHosts_no_order|apply moveHost_no_order]; by rewrite Ho.
Qed.

Lemma corrupt_host_order_breaks_view_witness :
  ∃ s0, initial_state {[HOST_ORDER_KEY := "42"]} = Normal s0
    ∧ hostOrder s0 = JNum false 42 0
    ∧ ∀ (World : Type) (client : solarClient.t World) (w : World)
        (hostStatuses : option (gmap string HostStatus)) (hostId : string) (dir : direction),
        mergedHosts s0 hostStatuses {[HOST_ORDER_KEY := "42"]} = Throw TypeError
        ∧ mergedHosts (fetchData client s0 w).1.1 hostStatuses {[HOST_ORDER_KEY := "42"]}
          = Throw TypeError
        ∧ moveHost hostId dir (fetchData client s0 w).1.1 {[HOST_ORDER_KEY := "42"]}
          = Throw TypeError.
Proof.
  apply (corrupt_host_order_breaks_view {[HOST_ORDER_KEY := "42"]} "42" (JNum false 42 0)).
  - apply lookup_singleton_eq.
  - discriminate.
  - vm_compute. reflexivity.
  - exact I.
Defined.

(** ** A host named like a member of [Object.prototype] *)

Lemma map_completion_throws {A B} (f : A → completion B) l x e :
  x ∈ l → f x = Throw e → ∃ e', map_completion f l = Throw e'.
Proof.
  intros Hx Hf. induction l as [|y l IH]; [by apply elem_of_nil in Hx|]. simpl.
  destruct (f y) as [r|e1] eqn:Hy; [|by eexists]. cbn [bind].
  destruct IH as [e' ->]; [|by eexists].
  apply elem_of_cons in Hx as [->|Hx]; [congruence|done].
Qed.

Lemma find_is_Some (hostId : string) (hs : list HostWithInstances) h :
  h ∈ hs → id_of h = hostId →
  ∃ h', find (λ h, String.eqb (id_of h) hostId) hs = Some h'.
Proof.
  intros Hh Hid. induction hs as [|y hs IH]; [by apply elem_of_nil in Hh|]. simpl.
  destruct (String.eqb_spec (id_of y) hostId) as [_|Hne]; [by eexists|].
  apply elem_of_cons in Hh as [->|Hh]; [done|by apply IH].
Qed.

Lemma overlay_host_instances hostStatuses h :
  instances (overlay_host hostStatuses h) = instances h.
Proof. unfold overlay_host. by destruct (hostStatuses ≫= _). Qed.

(** X17.  The cache of instance orders is a plain object, so for a host
    without a cached order whose id names a member of [Object.prototype] the
    read of the cache finds that member and the store is not consulted.  When
    the member cannot serve as an order ([constructor], [hasOwnProperty],
    [__proto__], ...), the effective view throws a TypeError, and so does
    every [moveInstance] on that host.  When it is a function of length 0
    ([toString], [toLocaleString], [valueOf]), the host is shown with its
    instances as fetched, whatever order is stored for it. *)
Theorem inherited_member_taken_as_order :
  ∀ (s : State) (ls : Storage) (hostStatuses : option (gmap string HostStatus))
    (h : HostWithInstances) (v : jsval),
    h ∈ hosts s →
    instanceOrders s !! id_of h = None →
    Object_prototype !! id_of h = Some v →
    saved_instance_order (instanceOrders s) ls (id_of h) = Normal v
    ∧ (no_order v →
       mergedHosts s hostStatuses ls = Throw TypeError
       ∧ ∀ instanceId dir, moveInstance (id_of h) instanceId dir s ls = Throw TypeError)
    ∧ (v = JFunction 0 →
       ∃ r, merge_host hostStatuses (instanceOrders s) ls h = Normal r
            ∧ instances r = instances h).
Proof.
  intros s ls hostStatuses h v Hh Hown Hv.
  pose proof (saved_instance_order_inherited _ ls _ _ Hown Hv) as Hsaved.
  split; [done|]. split.
  - intros Hno. split.
    + unfold mergedHosts.
      destruct (map_completion_throws (merge_host hostStatuses (instanceOrders s) ls)
                  (hosts s) h TypeError Hh) as [e' Hmap].
      { unfold merge_host. rewrite Hsaved. cbn [bind].
        by rewrite applySavedOrder_any_no_order. }
      rewrite Hmap. cbn [bind]. f_equal. by eapply map_merge_host_throws.
    + intros instanceId dir. unfold moveInstance.
      destruct (find_is_Some (id_of h) (hosts s) h Hh eq_refl) as [h' ->].
      rewrite Hsaved. cbn [bind]. unfold full_order.
      by rewrite applySavedOrder_any_no_order.
  - intros ->. unfold merge_host. rewrite Hsaved. cbn [bind]. simpl.
    eexists. split; [done|]. simpl. apply overlay_host_instances.
Qed.

Lemma inherited_member_taken_as_order_witness :
  let h := {| host := host_of "constructor" "online" None;
              instances := [instance_of "i1"; instance_of "i2"] |} in
  let ls := writeInstanceOrder "constructor" ["i2"; "i1"] ∅ in
  (h ∈ hosts (state_of [h])
   ∧ instanceOrders (state_of [h]) !! id_of h = None
   ∧ Object_prototype !! id_of h = Some (JFunction 1)
   ∧ no_order (JFunction 1))
  ∧ mergedHosts (state_of [h]) None ls = Throw TypeError
  ∧ ∀ instanceId dir, moveInstance (id_of h) instanceId dir (state_of [h]) ls = Throw TypeError.
Proof.
  intros h ls.
  assert (h ∈ hosts (state_of [h])) as H1 by (by left).
  assert (instanceOrders (state_of [h]) !! id_of h = None) as H2 by reflexivity.
  assert (Object_prototype !! id_of h = Some (JFunction 1)) as H3 by (vm_compute; reflexivity).
  assert (no_order (JFunction 1)) as H4 by (simpl; lia).
  split; [by repeat split|].
  exact (proj1 (proj2 (inherited_member_taken_as_order (state_of [h]) ls None h (JFunction 1)
                         H1 H2 H3)) H4).
Defined.

(** ** More on the order application function *)

Lemma sort_insert_fmap {A B} (f : A → B) (cmpA : A → A → Z) (cmpB : B → B → Z) x l :
  (∀ a b, cmpB (f a) (f b) = cmpA a b) →
  sort_insert cmpB (f x) (f <$> l) = f <$> sort_insert cmpA x l.
Proof.
  intros Hcmp. induction l as [|y l IH]; [done|].
  csimpl. rewrite Hcmp. destruct (cmpA x y <=? 0); [done|]. csimpl. by rewrite IH.
Qed.

Lemma Array_sort_fmap {A B} (f : A → B) (cmpA : A → A → Z) (cmpB : B → B → Z) l :
  (∀ a b, cmpB (f a) (f b) = cmpA a b) →
  Array_sort cmpB (f <$> l) = f <$> Array_sort cmpA l.
Proof.
  intros Hcmp. induction l as [|x l IH]; [done|].
  csimpl. rewrite IH. by apply sort_insert_fmap.
Qed.

Lemma filter_ext_in {A} (P Q : A → Prop) `{!∀ x, Decision (P x), !∀ x, Decision (Q x)}
    (l : list A) :
  (∀ x, x ∈ l → P x ↔ Q x) → filter P l = filter Q l.
Proof.
  induction l as [|x l IH]; intros Hiff; [done|].
  rewrite !filter_cons, IH by (intros y Hy; apply Hiff; by right).
  destruct (decide (P x)) as [Hp|Hp], (decide (Q x)) as [Hq|Hq]; try done.
  - destruct Hq. apply Hiff; [by left|done].
  - destruct Hp. apply Hiff; [by left|done].
Qed.

Lemma remove_dups_filter (P : string → Prop) `{!∀ x, Decision (P x)} (l : list string) :
  remove_dups (filter P l) = filter P (remove_dups l).
Proof.
  induction l as [|x l IH]; [done|].
  rewrite filter_cons. simpl. destruct (decide (P x)) as [Hp|Hp].
  - simpl. destruct (decide_rel elem_of x l) as [Hin|Hin],
      (decide_rel elem_of x (filter P l)) as [Hin'|Hin']; try done.
    + destruct Hin'. by apply list_elem_of_filter.
    + destruct Hin. by apply list_elem_of_filter in Hin' as [_ ?].
    + by rewrite filter_cons_True, IH.
  - destruct (decide_rel elem_of x l); [done|].
    by rewrite filter_cons_False.
Qed.

Lemma same_keys_eq {T} (id : T → string) (l1 l2 : list T) :
  (∀ x y, x ∈ l1 → y ∈ l2 → id x = id y → x = y) →
  id <$> l1 = id <$> l2 → l1 = l2.
Proof.
  revert l2. induction l1 as [|x l1 IH]; intros [|y l2] Hinj Hids; try done.
  injection Hids as Hxy Hrest. f_equal.
  - apply Hinj; [by left..|done].
  - apply IH; [|done]. intros a b Ha Hb. apply Hinj; by right.
Qed.

Lemma NoDup_fmap_inj_on {T} (id : T → string) (l : list T) x y :
  NoDup (id <$> l) → x ∈ l → y ∈ l → id x = id y → x = y.
Proof.
  induction l as [|z l IH]; csimpl; [by intros _ ?%elem_of_nil|].
  intros [Hz Hl]%NoDup_cons [->|Hx]%elem_of_cons [->|Hy]%elem_of_cons Hid; try done.
  - destruct Hz. rewrite Hid. by apply list_elem_of_fmap_2.
  - destruct Hz. rewrite <-Hid. by apply list_elem_of_fmap_2.
  - by apply IH.
Qed.

Lemma applySavedOrder_project {T} (id : T → string) items savedOrder :
  id <$> applySavedOrder id items savedOrder
  = applySavedOrder (λ x : string, x) (id <$> items) savedOrder.
Proof.
  destruct savedOrder as [|i order]; [done|].
  rewrite !applySavedOrder_cons. symmetry. by apply Array_sort_fmap.
Qed.

(** X4.  Ordering the entities and reading off their ids gives what
    ordering the bare ids gives: the order the reorder controller computes
    from the ids alone is the order of the entities in the view. *)
Theorem applySavedOrder_ids :
  ∀ (T : Type) (id : T → string) (items : list T) (savedOrder : list string),
    id <$> applySavedOrder id items savedOrder
    = applySavedOrder (λ x : string, x) (id <$> items) savedOrder.
Proof. intros. apply applySavedOrder_project. Qed.

Lemma applySavedOrder_full {T} (id : T → string) items savedOrder :
  NoDup savedOrder → savedOrder ≡ₚ id <$> items →
  id <$> applySavedOrder id items savedOrder = savedOrder.
Proof.
  intros Hnd Hperm.
  assert (NoDup (id <$> items)) as Hids by (by rewrite <-Hperm).
  pose proof (applySavedOrder_known id items savedOrder Hids) as Hk.
  rewrite filter_all in Hk.
  - rewrite Hk, remove_dups_NoDup by done. apply filter_all.
    apply Forall_forall. intros i Hi. by rewrite <-Hperm.
  - apply Forall_forall. intros x Hx. rewrite applySavedOrder_perm in Hx.
    rewrite Hperm. by apply list_elem_of_fmap_2.
Qed.

(** X5.  A saved order that lists every current id exactly once is
    reproduced exactly: the entities come out in that order. *)
Theorem applySavedOrder_complete :
  ∀ (T : Type) (id : T → string) (items : list T) (savedOrder : list string),
    NoDup savedOrder → savedOrder ≡ₚ id <$> items →
    id <$> applySavedOrder id items savedOrder = savedOrder.
Proof. intros. by apply applySavedOrder_full. Qed.

Lemma applySavedOrder_complete_witness :
  NoDup ["h3"; "h1"; "h2"]
  ∧ ["h3"; "h1"; "h2"] ≡ₚ id_of <$> [ {| host := host_of "h1" "online" None; instances := [] |};
                                      {| host := host_of "h2" "online" None; instances := [] |};
                                      {| host := host_of "h3" "online" None; instances := [] |} ]
  ∧ id_of <$> applySavedOrder id_of
        [ {| host := host_of "h1" "online" None; instances := [] |};
          {| host := host_of "h2" "online" None; instances := [] |};
          {| host := host_of "h3" "online" None; instances := [] |} ]
        ["h3"; "h1"; "h2"]
    = ["h3"; "h1"; "h2"].
Proof.
  assert (NoDup ["h3"; "h1"; "h2"]) as Hnd.
  { refine (bool_decide_unpack _ _). vm_compute. exact I. }
  assert (["h3"; "h1"; "h2"]
          ≡ₚ id_of <$> [ {| host := host_of "h1" "online" None; instances := [] |};
                         {| host := host_of "h2" "online" None; instances := [] |};
                         {| host := host_of "h3" "online" None; instances := [] |} ]) as Hperm.
  { simpl. unfold id_of. simpl. apply (Permutation_cons_app ["h1"; "h2"] [] "h3"). done. }
  split; [exact Hnd|]. split; [exact Hperm|].
  exact (applySavedOrder_complete _ id_of _ _ Hnd Hperm).
Defined.

(** X6.  Saved ids of entities that no longer exist are ignored: for
    entities with unique ids the result is the one the saved order gives once
    those ids are taken out of it. *)
Theorem applySavedOrder_stale_ids :
  ∀ (T : Type) (id : T → string) (items : list T) (savedOrder : list string),
    NoDup (id <$> items) →
    applySavedOrder id items savedOrder
    = applySavedOrder id items (filter (.∈ id <$> items) savedOrder).
Proof.
  intros T id items savedOrder Hnd.
  set (live := filter (.∈ id <$> items) savedOrder).
  apply (same_keys_eq id).
  { intros x y Hx Hy. rewrite applySavedOrder_perm in Hx, Hy.
    by apply (NoDup_fmap_inj_on id items). }
  rewrite (applySavedOrder_known_first id items savedOrder),
          (applySavedOrder_known_first id items live), !fmap_app.
  rewrite !applySavedOrder_known, !applySavedOrder_unknown by done.
  f_equal.
  - unfold live. rewrite remove_dups_filter. symmetry. apply list_filter_filter_l. done.
  - f_equal. apply filter_ext_in. intros x Hx. unfold live.
    rewrite list_elem_of_filter.
    assert (id x ∈ id <$> items) by (by apply list_elem_of_fmap_2). tauto.
Qed.

Lemma applySavedOrder_stale_ids_witness :
  NoDup ((λ x : string, x) <$> ["h1"; "h2"])
  ∧ applySavedOrder (λ x : string, x) ["h1"; "h2"] ["gone"; "h2"; "h1"]
    = applySavedOrder (λ x : string, x) ["h1"; "h2"]
        (filter (.∈ (λ x : string, x) <$> ["h1"; "h2"]) ["gone"; "h2"; "h1"]).
Proof.
  assert (NoDup ((λ x : string, x) <$> ["h1"; "h2"])) as Hnd.
  { refine (bool_decide_unpack _ _). vm_compute. exact I. }
  split; [exact Hnd|].
  exact (applySavedOrder_stale_ids string (λ x, x) ["h1"; "h2"] ["gone"; "h2"; "h1"] Hnd).
Defined.

(** ** More on the reorder controller *)

Lemma applySavedOrder_ids_full (currentIds savedOrder : list string) :
  NoDup savedOrder → savedOrder ≡ₚ currentIds →
  applySavedOrder (λ x : string, x) currentIds savedOrder = savedOrder.
Proof.
  intros Hnd Hperm.
  rewrite <-(list_fmap_id (applySavedOrder _ currentIds savedOrder)).
  apply (applySavedOrder_full (λ x : string, x)); [done|]. by rewrite list_fmap_id.
Qed.

Lemma order_value_inj order1 order2 : order_value order1 = order_value order2 → order1 = order2.
Proof.
  unfold order_value. intros [= H]. revert order2 H.
  induction order1 as [|x l IH]; intros [|y l'] H; simplify_eq/=; [done|].
  f_equal. by apply IH.
Qed.

Lemma swap_perm l i j : swap l i j ≡ₚ l.
Proof.
  unfold swap. destruct (l !! i) as [x|] eqn:Hi; [|done].
  destruct (l !! j) as [y|] eqn:Hj; [|done]. by apply Permutation_insert_swap.
Qed.

Lemma swap_swap l i j x y :
  i ≠ j → l !! i = Some x → l !! j = Some y → swap (swap l i j) j i = l.
Proof.
  intros Hij Hi Hj.
  destruct (swap_lookup l i j x y Hij Hi Hj) as (Hsi & Hsj & Hsk).
  rewrite (swap_found (swap l i j) j i x y) by done.
  pose proof (lookup_lt_Some _ _ _ Hi). pose proof (lookup_lt_Some _ _ _ Hj).
  assert (length (swap l i j) = length l) as Hlen by (by rewrite swap_perm).
  apply list_eq. intros k. destruct (decide (k = i)) as [->|Hki].
  - rewrite list_lookup_insert_eq; [done|]. rewrite length_insert. lia.
  - rewrite list_lookup_insert_ne by done. destruct (decide (k = j)) as [->|Hkj].
    + rewrite list_lookup_insert_eq; [done|]. lia.
    + rewrite list_lookup_insert_ne by done. by apply Hsk.
Qed.

Lemma indexOf_cases l x :
  (indexOf l x = -1 ∧ x ∉ l) ∨ ∃ i, indexOf l x = Z.of_nat i ∧ l !! i = Some x.
Proof.
  induction l as [|y l IH]; simpl.
  { left. split; [done|]. apply not_elem_of_nil. }
  destruct (String.eqb_spec y x) as [->|Hne].
  { right. by exists O. }
  destruct IH as [[-> Hx]|(i & -> & Hi)].
  - left. split; [done|]. apply not_elem_of_cons. split; [congruence|done].
  - right. exists (S i). split; [|done].
    destruct (Z.eqb_spec (Z.of_nat i) (-1)); lia.
Qed.

(** What [moved_order] returns is the swap of the target with its
    neighbour. *)
Lemma moved_order_Some l x dir newOrder :
  moved_order l x dir = Some newOrder →
  ∃ i j, l !! i = Some x ∧ adjacent dir i j ∧ (j < length l)%nat ∧ newOrder = swap l i j.
Proof.
  unfold moved_order. destruct (indexOf_cases l x) as [[-> _]|(i & -> & Hi)]; [done|].
  destruct (Z.eqb_spec (Z.of_nat i) (-1)); [lia|].
  set (swapIdx := match dir with up => Z.of_nat i - 1 | down => Z.of_nat i + 1 end).
  destruct (Z.ltb_spec swapIdx 0); [done|].
  destruct (Z.geb_spec swapIdx (Z.of_nat (length l))); [done|]. simpl.
  intros [= <-]. exists i, (Z.to_nat swapIdx). rewrite Nat2Z.id.
  repeat split; [done| |lia].
  unfold swapIdx in *. destruct dir; simpl; lia.
Qed.

Lemma moved_order_perm l x dir newOrder :
  moved_order l x dir = Some newOrder → newOrder ≡ₚ l.
Proof. intros (i & j & _ & _ & _ & ->)%moved_order_Some. apply swap_perm. Qed.

Lemma moved_order_changes l x dir newOrder :
  NoDup l → moved_order l x dir = Some newOrder → newOrder ≠ l.
Proof.
  intros Hnd (i & j & Hi & Hadj & Hj & ->)%moved_order_Some Heq.
  destruct (lookup_lt_is_Some_2 l j Hj) as [y Hy].
  pose proof (adjacent_ne _ _ _ Hadj) as Hij.
  destruct (swap_lookup l i j x y Hij Hi Hy) as (Hsi & _).
  rewrite Heq, Hi in Hsi. injection Hsi as <-.
  by apply Hij, (NoDup_lookup l i j x).
Qed.

Lemma moved_order_None l x dir :
  NoDup l → moved_order l x dir = None → x ∉ l ∨ at_boundary l x dir.
Proof.
  intros Hnd Hnone. destruct (decide (x ∈ l)) as [Hin|Hin]; [right|by left].
  apply list_elem_of_lookup in Hin as [i Hi].
  destruct dir; simpl.
  - destruct i as [|j]; [by destruct l|].
    rewrite (moved_order_adjacent l x up (S j) j) in Hnone; [done..|].
    apply lookup_lt_Some in Hi. lia.
  - rewrite last_lookup. destruct (decide (S i < length l)%nat) as [Hlt|Hge].
    + by rewrite (moved_order_adjacent l x down i (S i)) in Hnone.
    + apply lookup_lt_Some in Hi as Hlt.
      by replace (Init.Nat.pred (length l)) with i by lia.
Qed.

Lemma moved_order_back l x dir newOrder :
  NoDup l → moved_order l x dir = Some newOrder →
  moved_order newOrder x (opposite dir) = Some l.
Proof.
  intros Hnd Hmoved.
  pose proof (moved_order_perm _ _ _ _ Hmoved) as Hperm.
  apply moved_order_Some in Hmoved as (i & j & Hi & Hadj & Hj & ->).
  destruct (lookup_lt_is_Some_2 l j Hj) as [y Hy].
  pose proof (adjacent_ne _ _ _ Hadj) as Hij.
  destruct (swap_lookup l i j x y Hij Hi Hy) as (_ & Hsj & _).
  rewrite (moved_order_adjacent (swap l i j) x (opposite dir) j i).
  - by rewrite (swap_swap l i j x y).
  - by rewrite Hperm.
  - done.
  - destruct dir; simpl in *; lia.
  - rewrite Hperm. by eapply lookup_lt_Some.
Qed.

(** X7.  With the saved order a sequence of ids and unique sibling ids,
    [moveHost] leaves state and store as they were exactly when the target is
    absent or at the boundary it is moved towards, and so does [moveInstance]
    for a host that is present: every other move changes the order. *)
Theorem move_noop_iff :
  ∀ (s : State) (ls : Storage) (hostId instanceId : string) (dir : direction),
    (∀ prev,
       hostOrder s = order_value prev →
       let currentIds := id_of <$> hosts s in
       NoDup currentIds →
       moveHost hostId dir s ls = Normal (s, ls)
       ↔ hostId ∉ currentIds
         ∨ at_boundary (applySavedOrder (λ x : string, x) currentIds prev) hostId dir)
    ∧ (∀ h prev,
       find (λ h, String.eqb (id_of h) hostId) (hosts s) = Some h →
       saved_instance_order (instanceOrders s) ls hostId = Normal (order_value prev) →
       let currentIds := instance_id <$> instances h in
       NoDup currentIds →
       moveInstance hostId instanceId dir s ls = Normal (s, ls)
       ↔ instanceId ∉ currentIds
         ∨ at_boundary (applySavedOrder (λ x : string, x) currentIds prev) instanceId dir).
Proof.
  intros s ls hostId instanceId dir. split.
  - intros prev Hprev currentIds Hnd. rewrite (moveHost_typed _ _ _ _ prev Hprev).
    fold currentIds. set (fullOrder := applySavedOrder _ currentIds prev).
    assert (NoDup fullOrder) as Hfull by (by apply applySavedOrder_ids_NoDup).
    assert (fullOrder ≡ₚ currentIds) as Hperm by apply applySavedOrder_perm.
    destruct (moved_order fullOrder hostId dir) as [newOrder|] eqn:Hmoved.
    + split.
      * intros [= Hs _]. exfalso.
        assert (order_value newOrder = order_value prev) as Heq.
        { rewrite <-Hprev. by apply (f_equal hostOrder) in Hs. }
        apply order_value_inj in Heq. subst prev.
        apply (moved_order_changes _ _ _ _ Hfull Hmoved). unfold fullOrder.
        symmetry. apply applySavedOrder_ids_full.
        -- by rewrite (moved_order_perm _ _ _ _ Hmoved).
        -- by rewrite (moved_order_perm _ _ _ _ Hmoved).
      * intros [Habs|Hb].
        -- rewrite moved_order_absent in Hmoved; [done|]. by rewrite Hperm.
        -- by rewrite moved_order_boundary in Hmoved.
    + split; [|done]. intros _.
      destruct (moved_order_None _ _ _ Hfull Hmoved) as [Habs|Hb]; [left|by right].
      by rewrite <-Hperm.
  - intros h prev Hfind Hsaved currentIds Hnd.
    rewrite (moveInstance_typed _ _ _ _ _ h prev Hfind Hsaved).
    fold currentIds. set (fullOrder := applySavedOrder _ currentIds prev).
    assert (NoDup fullOrder) as Hfull by (by apply applySavedOrder_ids_NoDup).
    assert (fullOrder ≡ₚ currentIds) as Hperm by apply applySavedOrder_perm.
    destruct (moved_order fullOrder instanceId dir) as [newOrder|] eqn:Hmoved.
    + split.
      * intros [= Hs _]. exfalso.
        assert (instanceOrders s !! hostId = Some newOrder) as Hcached.
        { apply (f_equal instanceOrders) in Hs. simpl in Hs.
          rewrite <-Hs. apply lookup_insert_eq. }
        rewrite (saved_instance_order_cached _ ls _ _ Hcached) in Hsaved.
        assert (order_value newOrder = order_value prev) as Heq by congruence.
        apply order_value_inj in Heq. subst prev.
        apply (moved_order_changes _ _ _ _ Hfull Hmoved). unfold fullOrder.
        symmetry. apply applySavedOrder_ids_full.
        -- by rewrite (moved_order_perm _ _ _ _ Hmoved).
        -- by rewrite (moved_order_perm _ _ _ _ Hmoved).
      * intros [Habs|Hb].
        -- rewrite moved_order_absent in Hmoved; [done|]. by rewrite Hperm.
        -- by rewrite moved_order_boundary in Hmoved.
    + split; [|done]. intros _.
      destruct (moved_order_None _ _ _ Hfull Hmoved) as [Habs|Hb]; [left|by right].
      by rewrite <-Hperm.
Qed.

Lemma move_noop_iff_witness :
  let s := state_of [ {| host := host_of "h1" "online" None; instances := [] |};
                      {| host := host_of "h2" "online" None; instances := [] |} ] in
  hostOrder s = order_value []
  ∧ NoDup (id_of <$> hosts s)
  ∧ (moveHost "h2" up s ∅ = Normal (s, ∅)
     ↔ "h2" ∉ id_of <$> hosts s
       ∨ at_boundary (applySavedOrder (λ x : string, x) (id_of <$> hosts s) []) "h2" up).
Proof.
  intros s.
  assert (NoDup (id_of <$> hosts s)) as Hnd.
  { refine (bool_decide_unpack _ _). vm_compute. exact I. }
  split; [reflexivity|]. split; [exact Hnd|].
  exact (proj1 (move_noop_iff s ∅ "h2" "i" up) [] eq_refl Hnd).
Defined.

(** X8.  Whatever a move writes is a permutation of the ids of the current
    siblings: every current entity is in the new order once, entities that
    appeared since the last save included, and ids of entities that are gone
    are dropped.  The text of the new order is in the store under the order
    key, where a read finds it, and the new order is the cached one; no other
    key of the store and no other part of the state changes. *)
Theorem move_writes_current_ids :
  ∀ (s : State) (ls : Storage) (hostId instanceId : string) (dir : direction)
    (s' : State) (ls' : Storage),
    (moveHost hostId dir s ls = Normal (s', ls') →
       (s', ls') = (s, ls)
       ∨ ∃ newOrder,
           newOrder ≡ₚ id_of <$> hosts s
           ∧ host_order_cached newOrder s s'
           ∧ stored_under HOST_ORDER_KEY newOrder ls ls'
           ∧ readHostOrder ls' = Normal (order_value newOrder))
    ∧ (moveInstance hostId instanceId dir s ls = Normal (s', ls') →
       (s', ls') = (s, ls)
       ∨ ∃ h newOrder,
           find (λ h, String.eqb (id_of h) hostId) (hosts s) = Some h
           ∧ newOrder ≡ₚ instance_id <$> instances h
           ∧ instance_order_cached hostId newOrder s s'
           ∧ stored_under (INSTANCE_ORDER_KEY_PREFIX +:+ hostId) newOrder ls ls'
           ∧ readInstanceOrder ls' hostId = Normal (order_value newOrder)).
Proof.
  intros s ls hostId instanceId dir s' ls'. split.
  - unfold moveHost.
    destruct (full_order (map id_of (hosts s)) (hostOrder s)) as [fullOrder|] eqn:Hfull;
      [|done].
    cbn [bind]. apply applySavedOrder_any_perm in Hfull.
    destruct (moved_order fullOrder hostId dir) as [newOrder|] eqn:Hmoved.
    + intros [= <- <-]. right. exists newOrder.
      split; [by rewrite (moved_order_perm _ _ _ _ Hmoved)|].
      split; [apply host_order_cached_intro|].
      split; [apply stored_under_insert|apply read_order_written].
    + intros [= <- <-]. by left.
  - unfold moveInstance.
    destruct (find _ (hosts s)) as [h|] eqn:Hfind; [|intros [= <- <-]; by left].
    destruct (saved_instance_order _ ls hostId) as [saved|]; [|done]. cbn [bind].
    destruct (full_order (map instance_id (instances h)) saved) as [fullOrder|] eqn:Hfull;
      [|done].
    cbn [bind]. apply applySavedOrder_any_perm in Hfull.
    destruct (moved_order fullOrder instanceId dir) as [newOrder|] eqn:Hmoved.
    + intros [= <- <-]. right. exists h, newOrder. split; [done|].
      split; [by rewrite (moved_order_perm _ _ _ _ Hmoved)|].
      split; [apply instance_order_cached_intro|].
      split; [apply stored_under_insert|apply read_order_written].
    + intros [= <- <-]. by left.
Qed.

Lemma move_writes_current_ids_witness :
  let s := state_of [scenario_host] in
  let s' := setInstanceOrders (<[ "h" := ["i2"; "i1"; "i3"] ]> ∅) s in
  let ls' := writeInstanceOrder "h" ["i2"; "i1"; "i3"] scenario_store in
  moveInstance "h" "i2" up s scenario_store = Normal (s', ls')
  ∧ ((s', ls') = (s, scenario_store)
     ∨ ∃ h newOrder,
         find (λ h, String.eqb (id_of h) "h") (hosts s) = Some h
         ∧ newOrder ≡ₚ instance_id <$> instances h
         ∧ instance_order_cached "h" newOrder s s'
         ∧ stored_under (INSTANCE_ORDER_KEY_PREFIX +:+ "h") newOrder scenario_store ls'
         ∧ readInstanceOrder ls' "h" = Normal (order_value newOrder)).
Proof.
  intros s s' ls'.
  assert (moveInstance "h" "i2" up (state_of [scenario_host]) scenario_store
          = Normal (setInstanceOrders (<[ "h" := ["i2"; "i1"; "i3"] ]> ∅)
                      (state_of [scenario_host]),
                    writeInstanceOrder "h" ["i2"; "i1"; "i3"] scenario_store)) as Hmove.
  { vm_compute. reflexivity. }
  split; [exact Hmove|].
  exact (proj2 (move_writes_current_ids (state_of [scenario_host]) scenario_store "h" "i2" up
                  _ _) Hmove).
Defined.

Lemma merge_host_id hostStatuses orders ls h r :
  merge_host hostStatuses orders ls h = Normal r → id_of r = id_of h.
Proof. intros [Hid _]%merge_host_shown. exact Hid. Qed.

Lemma map_merge_host_ids hostStatuses orders ls hs merged :
  map_completion (merge_host hostStatuses orders ls) hs = Normal merged →
  id_of <$> merged = id_of <$> hs.
Proof.
  intros H%map_completion_Forall2.
  induction H as [|h r hs merged Hr _ IH]; [done|].
  csimpl. by rewrite IH, (merge_host_id _ _ _ _ _ Hr).
Qed.

Lemma mergedHosts_typed_ids s hostStatuses ls prev view :
  hostOrder s = order_value prev →
  mergedHosts s hostStatuses ls = Normal view →
  id_of <$> view = applySavedOrder (λ x : string, x) (id_of <$> hosts s) prev.
Proof.
  intros Hprev. unfold mergedHosts.
  destruct (map_completion _ (hosts s)) as [merged|] eqn:Hmap; [|done].
  cbn [bind]. rewrite Hprev, applySavedOrder_any_typed. intros [= <-].
  by rewrite applySavedOrder_project, (map_merge_host_ids _ _ _ _ _ Hmap).
Qed.

Lemma typed_orders_move_host s ls newOrder :
  hook_store ls →
  typed_orders (setHostOrder (order_value newOrder) s) (writeHostOrder newOrder ls).
Proof. intros Hls. split; [by apply hook_store_insert|by eexists]. Qed.

(** X9.  A host move shows at once.  With a store that holds only written
    orders, unique host ids and no host without a cached order named like a
    member of [Object.prototype], the view before the move lists the hosts in
    the effective order, and the view computed from the state and the store
    the move leaves lists them in that order with the target and its
    neighbour exchanged, whatever the overlay. *)
Theorem moveHost_then_view :
  ∀ (s : State) (ls : Storage) (hostId : string) (dir : direction)
    (hostStatuses : option (gmap string HostStatus)) (prev : list string) (i j : nat),
    hook_store ls →
    hostOrder s = order_value prev →
    (∀ h, h ∈ hosts s → no_inherited_order (instanceOrders s) (id_of h)) →
    let currentIds := id_of <$> hosts s in
    let fullOrder := applySavedOrder (λ x : string, x) currentIds prev in
    NoDup currentIds →
    fullOrder !! i = Some hostId → adjacent dir i j → (j < length fullOrder)%nat →
    ∃ view s' ls' view',
      mergedHosts s hostStatuses ls = Normal view
      ∧ id_of <$> view = fullOrder
      ∧ moveHost hostId dir s ls = Normal (s', ls')
      ∧ mergedHosts s' hostStatuses ls' = Normal view'
      ∧ swapped fullOrder hostId i j (id_of <$> view').
Proof.
  intros s ls hostId dir hostStatuses prev i j Hls Hprev Hplain currentIds fullOrder
    Hnd Hi Hadj Hj.
  destruct (mergedHosts_returns s hostStatuses ls) as [view Hview].
  { apply typed_orders_arrays; [|done]. split; [done|by eexists]. }
  assert (NoDup fullOrder) as Hfull by (by apply applySavedOrder_ids_NoDup).
  set (newOrder := swap fullOrder i j).
  assert (newOrder ≡ₚ currentIds) as Hperm.
  { unfold newOrder. rewrite swap_perm. apply applySavedOrder_perm. }
  destruct (mergedHosts_returns (setHostOrder (order_value newOrder) s) hostStatuses
              (writeHostOrder newOrder ls)) as [view' Hview'].
  { apply typed_orders_arrays; [by apply typed_orders_move_host|done]. }
  exists view, (setHostOrder (order_value newOrder) s), (writeHostOrder newOrder ls), view'.
  split; [done|]. split; [by apply (mergedHosts_typed_ids s hostStatuses ls prev)|].
  split; [|split; [done|]].
  - rewrite (moveHost_typed _ _ _ _ prev Hprev). fold currentIds fullOrder.
    by rewrite (moved_order_adjacent fullOrder hostId dir i j).
  - rewrite (mergedHosts_typed_ids (setHostOrder (order_value newOrder) s) hostStatuses
               (writeHostOrder newOrder ls) newOrder view' eq_refl Hview'). simpl.
    fold currentIds. rewrite applySavedOrder_ids_full.
    + apply swapped_intro; [by eapply adjacent_ne|done..].
    + by rewrite Hperm.
    + done.
Qed.

Lemma moveHost_then_view_witness :
  let s := state_of [ {| host := host_of "h1" "online" None; instances := [] |};
                      {| host := host_of "h2" "online" None; instances := [] |} ] in
  ∃ view s' ls' view',
    mergedHosts s None ∅ = Normal view
    ∧ id_of <$> view = applySavedOrder (λ x : string, x) (id_of <$> hosts s) []
    ∧ moveHost "h2" up s ∅ = Normal (s', ls')
    ∧ mergedHosts s' None ls' = Normal view'
    ∧ swapped (applySavedOrder (λ x : string, x) (id_of <$> hosts s) []) "h2" 1 0
        (id_of <$> view').
Proof.
  intros s.
  apply (moveHost_then_view s ∅ "h2" up None [] 1%nat 0%nat).
  - apply hook_store_empty.
  - reflexivity.
  - intros h Hh. right. set_unfold in Hh. by destruct Hh as [->|[->|[]]].
  - refine (bool_decide_unpack _ _). vm_compute. exact I.
  - reflexivity.
  - reflexivity.
  - vm_compute. lia.
Defined.

Lemma find_elem_of {A} (f : A → bool) (l : list A) x :
  find f l = Some x → x ∈ l ∧ f x = true.
Proof.
  induction l as [|y l IH]; simpl; [done|].
  destruct (f y) eqn:Hy.
  - intros [= ->]. split; [by left|done].
  - intros [Hin Hx]%IH. split; [by right|done].
Qed.

Lemma mergedHosts_ids_perm s hostStatuses ls view :
  mergedHosts s hostStatuses ls = Normal view → id_of <$> view ≡ₚ id_of <$> hosts s.
Proof.
  unfold mergedHosts.
  destruct (map_completion _ (hosts s)) as [merged|] eqn:Hmap; [|done].
  cbn [bind]. intros Hperm%applySavedOrder_any_perm.
  by rewrite Hperm, (map_merge_host_ids _ _ _ _ _ Hmap).
Qed.

Lemma mergedHosts_instances s hostStatuses ls view h order r :
  NoDup (id_of <$> hosts s) →
  mergedHosts s hostStatuses ls = Normal view →
  h ∈ hosts s →
  saved_instance_order (instanceOrders s) ls (id_of h) = Normal (order_value order) →
  r ∈ view → id_of r = id_of h →
  instance_id <$> instances r
  = applySavedOrder (λ x : string, x) (instance_id <$> instances h) order.
Proof.
  intros Hnd Hview Hh Hsaved Hr Hid. unfold mergedHosts in Hview.
  destruct (map_completion _ (hosts s)) as [merged|] eqn:Hmap; [|done].
  cbn [bind] in Hview. apply applySavedOrder_any_perm in Hview.
  rewrite Hview in Hr. apply list_elem_of_lookup in Hr as [k Hk].
  apply map_completion_Forall2 in Hmap.
  destruct (Forall2_lookup_r _ _ _ _ _ Hmap Hk) as (h2 & Hh2 & Hmerge).
  apply merge_host_shown in Hmerge as (Hid2 & _ & _ & Hinst & _).
  assert (h2 = h) as ->.
  { apply (NoDup_fmap_inj_on id_of (hosts s)); [done| |done|].
    - by eapply list_elem_of_lookup_2.
    - unfold id_of in *. congruence. }
  rewrite Hsaved in Hinst. cbn [bind] in Hinst.
  rewrite applySavedOrder_any_typed in Hinst. injection Hinst as <-.
  apply applySavedOrder_project.
Qed.

(** X10.  An instance move shows at once.  With typed orders, unique ids of
    hosts and of the host's instances, and no host without a cached order
    named like a member of [Object.prototype], the view computed from what
    the move leaves shows the host, and shows its instances in the effective
    order they had with the target and its neighbour exchanged. *)
Theorem moveInstance_then_view :
  ∀ (s : State) (ls : Storage) (hostId instanceId : string) (dir : direction)
    (hostStatuses : option (gmap string HostStatus))
    (h : HostWithInstances) (prev : list string) (i j : nat),
    typed_orders s ls →
    (∀ h, h ∈ hosts s → no_inherited_order (instanceOrders s) (id_of h)) →
    NoDup (id_of <$> hosts s) →
    find (λ h, String.eqb (id_of h) hostId) (hosts s) = Some h →
    saved_instance_order (instanceOrders s) ls hostId = Normal (order_value prev) →
    let currentIds := instance_id <$> instances h in
    let fullOrder := applySavedOrder (λ x : string, x) currentIds prev in
    NoDup currentIds →
    fullOrder !! i = Some instanceId → adjacent dir i j → (j < length fullOrder)%nat →
    ∃ view s' ls' view',
      mergedHosts s hostStatuses ls = Normal view
      ∧ (∀ r, r ∈ view → id_of r = hostId → instance_id <$> instances r = fullOrder)
      ∧ moveInstance hostId instanceId dir s ls = Normal (s', ls')
      ∧ mergedHosts s' hostStatuses ls' = Normal view'
      ∧ (∃ r, r ∈ view' ∧ id_of r = hostId)
      ∧ (∀ r, r ∈ view' → id_of r = hostId →
           swapped fullOrder instanceId i j (instance_id <$> instances r)).
Proof.
  intros s ls hostId instanceId dir hostStatuses h prev i j [Hls [prevH HprevH]] Hplain Hhosts
    Hfind Hsaved currentIds fullOrder Hnd Hi Hadj Hj.
  apply find_elem_of in Hfind as Hh. destruct Hh as [Hh Hhid].
  apply String.eqb_eq in Hhid.
  destruct (mergedHosts_returns s hostStatuses ls) as [view Hview].
  { apply typed_orders_arrays; [|done]. split; [done|by eexists]. }
  assert (NoDup fullOrder) as Hfull by (by apply applySavedOrder_ids_NoDup).
  set (newOrder := swap fullOrder i j).
  assert (newOrder ≡ₚ currentIds) as Hperm.
  { unfold newOrder. rewrite swap_perm. apply applySavedOrder_perm. }
  set (s' := setInstanceOrders (<[hostId := newOrder]> (instanceOrders s)) s).
  set (ls' := writeInstanceOrder hostId newOrder ls).
  destruct (mergedHosts_returns s' hostStatuses ls') as [view' Hview'].
  { apply typed_orders_arrays; [split; [by apply hook_store_insert|by eexists]|].
    intros h' Hh'. by apply no_inherited_order_insert, Hplain. }
  exists view, s', ls', view'.
  split; [done|]. split; [|split; [|split; [done|split]]].
  - intros r Hr Hid. subst hostId.
    by apply (mergedHosts_instances s hostStatuses ls view h prev r).
  - rewrite (moveInstance_typed _ _ _ _ _ h prev Hfind Hsaved). fold currentIds fullOrder.
    by rewrite (moved_order_adjacent fullOrder instanceId dir i j).
  - assert (hostId ∈ id_of <$> view') as (r & Hid & Hr)%list_elem_of_fmap.
    { rewrite (mergedHosts_ids_perm _ _ _ _ Hview'). simpl. rewrite <-Hhid.
      by apply list_elem_of_fmap_2. }
    by exists r.
  - intros r Hr Hid. subst hostId.
    rewrite (mergedHosts_instances s' hostStatuses ls' view' h newOrder r); try done.
    + fold currentIds. rewrite applySavedOrder_ids_full; [|by rewrite Hperm|done].
      apply swapped_intro; [by eapply adjacent_ne|done..].
    + apply saved_instance_order_cached. simpl. apply lookup_insert_eq.
Qed.

Lemma moveInstance_then_view_witness :
  let s := state_of [scenario_host] in
  ∃ view s' ls' view',
    mergedHosts s None scenario_store = Normal view
    ∧ (∀ r, r ∈ view → id_of r = "h" →
         instance_id <$> instances r
         = applySavedOrder (λ x : string, x) (instance_id <$> instances scenario_host)
             ["i1"; "i2"; "i3"])
    ∧ moveInstance "h" "i2" up s scenario_store = Normal (s', ls')
    ∧ mergedHosts s' None ls' = Normal view'
    ∧ (∃ r, r ∈ view' ∧ id_of r = "h")
    ∧ (∀ r, r ∈ view' → id_of r = "h" →
         swapped (applySavedOrder (λ x : string, x) (instance_id <$> instances scenario_host)
                    ["i1"; "i2"; "i3"]) "i2" 1 0 (instance_id <$> instances r)).
Proof.
  intros s.
  apply (moveInstance_then_view s scenario_store "h" "i2" up None scenario_host
           ["i1"; "i2"; "i3"] 1%nat 0%nat).
  - split; [|by exists []].
    unfold scenario_store, writeInstanceOrder. apply hook_store_insert, hook_store_empty.
  - intros h Hh. right. set_unfold in Hh. by destruct Hh as [->|[]].
  - refine (bool_decide_unpack _ _). vm_compute. exact I.
  - reflexivity.
  - vm_compute. reflexivity.
  - refine (bool_decide_unpack _ _). vm_compute. exact I.
  - vm_compute. reflexivity.
  - reflexivity.
  - vm_compute. lia.
Defined.

(** X11.  Moving back undoes a move.  After a move that exchanged the target
    with its neighbour, the move of the same target in the opposite direction
    leaves, cached and in the store, the effective order the first move
    started from. *)
Theorem move_back :
  (∀ (s : State) (ls : Storage) (hostId : string) (dir : direction)
     (prev : list string) (i j : nat),
    hostOrder s = order_value prev →
    let currentIds := id_of <$> hosts s in
    let fullOrder := applySavedOrder (λ x : string, x) currentIds prev in
    NoDup currentIds →
    fullOrder !! i = Some hostId → adjacent dir i j → (j < length fullOrder)%nat →
    ∃ s1 ls1 s2 ls2,
      moveHost hostId dir s ls = Normal (s1, ls1)
      ∧ moveHost hostId (opposite dir) s1 ls1 = Normal (s2, ls2)
      ∧ hostOrder s2 = order_value fullOrder
      ∧ readHostOrder ls2 = Normal (order_value fullOrder))
  ∧ (∀ (s : State) (ls : Storage) (hostId instanceId : string) (dir : direction)
       (h : HostWithInstances) (prev : list string) (i j : nat),
    find (λ h, String.eqb (id_of h) hostId) (hosts s) = Some h →
    saved_instance_order (instanceOrders s) ls hostId = Normal (order_value prev) →
    let currentIds := instance_id <$> instances h in
    let fullOrder := applySavedOrder (λ x : string, x) currentIds prev in
    NoDup currentIds →
    fullOrder !! i = Some instanceId → adjacent dir i j → (j < length fullOrder)%nat →
    ∃ s1 ls1 s2 ls2,
      moveInstance hostId instanceId dir s ls = Normal (s1, ls1)
      ∧ moveInstance hostId instanceId (opposite dir) s1 ls1 = Normal (s2, ls2)
      ∧ instanceOrders s2 !! hostId = Some fullOrder
      ∧ readInstanceOrder ls2 hostId = Normal (order_value fullOrder)).
Proof.
  split.
  - intros s ls hostId dir prev i j Hprev currentIds fullOrder Hnd Hi Hadj Hj.
    assert (NoDup fullOrder) as Hfull by (by apply applySavedOrder_ids_NoDup).
    assert (moved_order fullOrder hostId dir = Some (swap fullOrder i j)) as Hmoved
      by (by apply moved_order_adjacent).
    pose proof (moved_order_perm _ _ _ _ Hmoved) as Hperm.
    pose proof (moved_order_back _ _ _ _ Hfull Hmoved) as Hback.
    set (newOrder := swap fullOrder i j) in *.
    set (s1 := setHostOrder (order_value newOrder) s).
    exists s1, (writeHostOrder newOrder ls), (setHostOrder (order_value fullOrder) s1),
      (writeHostOrder fullOrder (writeHostOrder newOrder ls)).
    split; [|split; [|split]].
    + rewrite (moveHost_typed _ _ _ _ prev Hprev). fold currentIds fullOrder.
      by rewrite Hmoved.
    + rewrite (moveHost_typed hostId (opposite dir) s1 _ newOrder eq_refl). simpl.
      fold currentIds. rewrite applySavedOrder_ids_full, Hback; [done| |].
      * by rewrite Hperm.
      * rewrite Hperm. apply applySavedOrder_perm.
    + done.
    + apply read_order_written.
  - intros s ls hostId instanceId dir h prev i j Hfind Hsaved currentIds fullOrder
      Hnd Hi Hadj Hj.
    assert (NoDup fullOrder) as Hfull by (by apply applySavedOrder_ids_NoDup).
    assert (moved_order fullOrder instanceId dir = Some (swap fullOrder i j)) as Hmoved
      by (by apply moved_order_adjacent).
    pose proof (moved_order_perm _ _ _ _ Hmoved) as Hperm.
    pose proof (moved_order_back _ _ _ _ Hfull Hmoved) as Hback.
    set (newOrder := swap fullOrder i j) in *.
    set (s1 := setInstanceOrders (<[hostId := newOrder]> (instanceOrders s)) s).
    exists s1, (writeInstanceOrder hostId newOrder ls),
      (setInstanceOrders (<[hostId := fullOrder]> (instanceOrders s1)) s1),
      (writeInstanceOrder hostId fullOrder (writeInstanceOrder hostId newOrder ls)).
    split; [|split; [|split]].
    + rewrite (moveInstance_typed _ _ _ _ _ h prev Hfind Hsaved). fold currentIds fullOrder.
      by rewrite Hmoved.
    + rewrite (moveInstance_typed hostId instanceId (opposite dir) s1 _ h newOrder).
      * fold currentIds. rewrite applySavedOrder_ids_full, Hback; [done| |].
        -- by rewrite Hperm.
        -- rewrite Hperm. apply applySavedOrder_perm.
      * done.
      * apply saved_instance_order_cached. simpl. apply lookup_insert_eq.
    + simpl. apply lookup_insert_eq.
    + apply read_order_written.
Qed.

Lemma move_back_witness :
  let s := state_of [ {| host := host_of "h1" "online" None; instances := [] |};
                      {| host := host_of "h2" "online" None; instances := [] |} ] in
  ∃ s1 ls1 s2 ls2,
    moveHost "h2" up s ∅ = Normal (s1, ls1)
    ∧ moveHost "h2" (opposite up) s1 ls1 = Normal (s2, ls2)
    ∧ hostOrder s2
      = order_value (applySavedOrder (λ x : string, x) (id_of <$> hosts s) [])
    ∧ readHostOrder ls2
      = Normal (order_value (applySavedOrder (λ x : string, x) (id_of <$> hosts s) [])).
Proof.
  intros s.
  apply (proj1 move_back s ∅ "h2" up [] 1%nat 0%nat).
  - reflexivity.
  - refine (bool_decide_unpack _ _). vm_compute. exact I.
  - reflexivity.
  - reflexivity.
  - vm_compute. lia.
Defined.

(** ** More on the refresh and on the view *)

Lemma fetchInstances_trace {World} (client : solarClient.t World) hostsData w :
  (fetchInstances client hostsData w).1.2 = CallGetHostInstances ∘ host_id <$> hostsData
  ∧ snd <$> (fetchInstances client hostsData w).2
    = failure_lines hostsData (instance_replies client hostsData w).
Proof.
  revert w. induction hostsData as [|h rest IH]; intros w; [done|].
  simpl. destruct (solarClient.getHostInstances client (host_id h) w) as [r w1].
  destruct (IH w1) as [IHc IHl].
  destruct (fetchInstances client rest w1) as [[[out w2] calls] logs].
  simpl in IHc, IHl. unfold failure_lines. csimpl.
  destruct r; csimpl; by rewrite IHc, IHl.
Qed.

Lemma written_perm logs : written logs ≡ₚ snd <$> logs.
Proof. unfold written. by rewrite Array_sort_perm. Qed.

Lemma failure_lines_console hostsData replies :
  Forall (λ e, is_request e = false) (failure_lines hostsData replies).
Proof.
  unfold failure_lines. revert replies.
  induction hostsData as [|h rest IH]; intros [|r replies]; simpl; try constructor.
  destruct r; simpl; [apply IH|]. constructor; [done|apply IH].
Qed.

Lemma requests_calls (ids : list string) (logs : list event) :
  Forall (λ e, is_request e = false) logs →
  requests (CallGetHosts :: (CallGetHostInstances <$> ids) ++ logs)
  = CallGetHosts :: (CallGetHostInstances <$> ids).
Proof.
  intros Hlogs. unfold requests. rewrite filter_cons_True by done. f_equal.
  rewrite filter_app. rewrite (filter_all _ (CallGetHostInstances <$> ids)).
  - rewrite (filter_none _ logs); [by rewrite app_nil_r|].
    eapply Forall_impl; [exact Hlogs|]. simpl. intros e He. congruence.
  - apply Forall_forall. by intros e (i & -> & _)%list_elem_of_fmap.
Qed.

Lemma console_lines_logs (ids : list string) (logs : list event) :
  Forall (λ e, is_request e = false) logs →
  console_lines (CallGetHosts :: (CallGetHostInstances <$> ids) ++ logs) = logs.
Proof.
  intros Hlogs. unfold console_lines. rewrite filter_cons_False by done.
  rewrite filter_app. rewrite (filter_none _ (CallGetHostInstances <$> ids)).
  - simpl. by apply filter_all.
  - apply Forall_forall. by intros e (i & -> & _)%list_elem_of_fmap.
Qed.

(** X12.  A refresh asks for the host list once and then, when it got the
    list, for the instances of every host in it once, in the order of the
    list, and for nothing else; the console gets one line for each host
    whose request failed, in whatever order the requests were rejected.  When
    the host list cannot be fetched no instance request is issued and the
    console gets the one line of that failure. *)
Theorem fetchData_requests :
  ∀ (World : Type) (client : solarClient.t World) (s : State) (w : World),
    (∀ hostsData w1, solarClient.getHosts client w = (Normal hostsData, w1) →
       requests (fetchData client s w).2
       = CallGetHosts :: (CallGetHostInstances ∘ host_id <$> hostsData)
       ∧ console_lines (fetchData client s w).2
         ≡ₚ failure_lines hostsData (instance_replies client hostsData w1))
    ∧ (∀ err w1, solarClient.getHosts client w = (Throw err, w1) →
       (fetchData client s w).2 = [CallGetHosts; ConsoleError "Failed to fetch hosts:"]).
Proof.
  intros World client s w. split.
  - intros hostsData w1 Hget. unfold fetchData. rewrite Hget.
    destruct (fetchInstances_trace client hostsData w1) as [Hc Hl].
    destruct (fetchInstances client hostsData w1) as [[[out w2] calls] logs].
    simpl in *. subst calls.
    assert (written logs ≡ₚ failure_lines hostsData (instance_replies client hostsData w1))
      as Hperm by (by rewrite written_perm, Hl).
    assert (Forall (λ e, is_request e = false) (written logs)) as Hlogs.
    { rewrite Hperm. apply failure_lines_console. }
    rewrite list_fmap_compose.
    split; [by apply requests_calls|]. by rewrite console_lines_logs.
  - intros err w1 Hget. unfold fetchData. by rewrite Hget.
Qed.

Lemma fetchData_requests_witness :
  solarClient.getHosts scenario_client ()
  = (Normal [host_of "A" "online" None; host_of "B" "online" None], ())
  ∧ requests (fetchData scenario_client (state_of []) ()).2
    = CallGetHosts
      :: (CallGetHostInstances ∘ host_id
          <$> [host_of "A" "online" None; host_of "B" "online" None])
  ∧ console_lines (fetchData scenario_client (state_of []) ()).2
    ≡ₚ failure_lines [host_of "A" "online" None; host_of "B" "online" None]
         (instance_replies scenario_client
            [host_of "A" "online" None; host_of "B" "online" None] ()).
Proof.
  split; [reflexivity|].
  exact (proj1 (fetchData_requests unit scenario_client (state_of []) ()) _ () eq_refl).
Defined.

Lemma merge_host_plain hostStatuses orders ls h :
  hostStatuses ≫= (λ m, m !! id_of h) = None →
  saved_instance_order orders ls (id_of h) = Normal (JArr []) →
  merge_host hostStatuses orders ls h = Normal h.
Proof.
  intros Hov Hsaved. unfold merge_host, overlay_host. rewrite Hov, Hsaved.
  cbn [bind]. simpl. by destruct h.
Qed.

(** X13.  With no saved order in use (an empty host order, and for every
    host a cache read that gives nothing, its id having no cached order and
    naming no member of [Object.prototype], and nothing readable stored for
    it) and no overlay entry for any host, the effective view is the snapshot
    itself, hosts and their instances in the order fetched. *)
Theorem mergedHosts_plain :
  ∀ (s : State) (hostStatuses : option (gmap string HostStatus)) (ls : Storage),
    hostOrder s = JArr [] →
    (∀ h, h ∈ hosts s →
       Object_get (instanceOrders s) (id_of h) = None
       ∧ unreadable ls (INSTANCE_ORDER_KEY_PREFIX +:+ id_of h)
       ∧ hostStatuses ≫= (λ m, m !! id_of h) = None) →
    mergedHosts s hostStatuses ls = Normal (hosts s).
Proof.
  intros s hostStatuses ls Horder Hplain. unfold mergedHosts.
  assert (map_completion (merge_host hostStatuses (instanceOrders s) ls) (hosts s)
          = Normal (hosts s)) as ->.
  { induction (hosts s) as [|h hs IH]; [done|]. simpl.
    destruct (Hplain h) as (Hcache & Hstore & Hov); [by left|].
    rewrite merge_host_plain; [|done|].
    - cbn [bind]. rewrite IH; [done|]. intros h' Hh'. apply Hplain. by right.
    - rewrite saved_instance_order_missing by done.
      by apply read_order_unreadable. }
  cbn [bind]. by rewrite Horder.
Qed.

Lemma mergedHosts_plain_witness :
  mergedHosts (state_of [scenario_host; overlaid_host]) None ∅
  = Normal (hosts (state_of [scenario_host; overlaid_host])).
Proof.
  apply mergedHosts_plain; [reflexivity|].
  intros h Hh. split; [|split; [|reflexivity]].
  - set_unfold in Hh. by destruct Hh as [->|[->|[]]].
  - unfold unreadable. by rewrite lookup_empty.
Defined.

(** ** The tables: [truncateModel] *)

Lemma js_slice_tail s k :
  0 < k →
  js_slice s (- k) None = drop (length s - Z.to_nat k) s.
Proof.
  intros Hk. unfold js_slice.
  destruct (Z.ltb_spec (- k) 0); [|lia].
  destruct (Z.geb_spec (Z.max (Z.of_nat (length s) + - k) 0) (Z.of_nat (length s))) as [Hge|Hlt].
  - assert (length s = 0)%nat as Hlen by lia.
    destruct s; [done|simpl in Hlen; lia].
  - replace (Z.to_nat (Z.max (Z.of_nat (length s) + - k) 0))
      with (length s - Z.to_nat k)%nat by lia.
    apply take_ge. rewrite length_drop. lia.
Qed.

Lemma js_slice_head s e :
  0 <= e → js_slice s 0 (Some e) = take (Z.to_nat e) s.
Proof.
  intros He. unfold js_slice.
  destruct (Z.ltb_spec 0 0); [lia|]. destruct (Z.ltb_spec e 0); [lia|].
  rewrite Z.min_l by lia.
  destruct (Z.geb_spec 0 (Z.min e (Z.of_nat (length s)))) as [Hge|Hlt].
  - assert (Z.to_nat e = 0 ∨ length s = 0)%nat as [->|Hlen] by lia; [done|].
    destruct s; [by rewrite take_nil|simpl in Hlen; lia].
  - rewrite Z.sub_0_r. change (Z.to_nat 0) with O. rewrite drop_0.
    destruct (Z.min_spec e (Z.of_nat (length s))) as [[_ ->]|[Hle ->]]; [done|].
    rewrite Nat2Z.id, firstn_all. symmetry. apply take_ge. lia.
Qed.


(** A string without the separator is one part; otherwise the last part is
    what follows the last separator. *)
Lemma js_split_parts sep s :
  ((sep ∉ s) ∧ js_split sep s = [s])
  ∨ ∃ pre filename,
      s = pre ++ sep :: filename
      ∧ (sep ∉ filename)
      ∧ last (js_split sep s) = Some filename
      ∧ (2 <= length (js_split sep s))%nat.
Proof.
  induction s as [|c s IH]; simpl.
  { left. split; [apply not_elem_of_nil|done]. }
  destruct (N.eqb_spec c sep) as [->|Hne].
  - right. destruct IH as [[Hno ->]|(pre & filename & -> & Hno & Hlast & Hlen)].
    + exists [], s. repeat split; [done|]. simpl. lia.
    + exists (sep :: pre), filename. repeat split; [done| |simpl; lia].
      destruct (js_split sep (pre ++ sep :: filename)); [simpl in Hlen; lia|done].
  - destruct IH as [[Hno ->]|(pre & filename & -> & Hno & Hlast & Hlen)].
    + left. split; [|done]. apply not_elem_of_cons. done.
    + right. exists (c :: pre), filename.
      destruct (js_split sep (pre ++ sep :: filename)) as [|part [|p parts]];
        [simpl in Hlen; lia..|].
      repeat split; [done..|simpl; lia].
Qed.

Lemma truncateModel_short model maxLen :
  Z.of_nat (length model) <= maxLen → truncateModel model maxLen = model.
Proof.
  intros Hlen. unfold truncateModel.
  by destruct (Z.leb_spec (Z.of_nat (length model)) maxLen); [|lia].
Qed.

Lemma truncateModel_long model maxLen :
  4 <= maxLen → maxLen < Z.of_nat (length model) →
  (slash ∈ model
   ∧ ∃ tail, truncateModel model maxLen = [dot; dot; dot] ++ tail
       ∧ tail `suffix_of` model
       ∧ Z.of_nat (length tail) <= maxLen - 3)
  ∨ ((slash ∉ model)
     ∧ truncateModel model maxLen = take (Z.to_nat (maxLen - 3)) model ++ [dot; dot; dot]).
Proof.
  intros Hmax Hlong. unfold truncateModel.
  destruct (Z.leb_spec (Z.of_nat (length model)) maxLen); [lia|].
  case_bool_decide as Hslash.
  - left. split; [done|].
    destruct (js_split_parts slash model)
      as [[Hno _]|(pre & filename & Hmodel & _ & -> & _)]; [done|]. simpl.
    destruct (Z.leb_spec (Z.of_nat (length filename)) (maxLen - 4)).
    + exists (slash :: filename). split; [done|]. split.
      * exists pre. by rewrite Hmodel.
      * simpl. lia.
    + rewrite js_slice_tail by lia.
      exists (drop (length filename - Z.to_nat (maxLen - 3)) filename).
      split; [done|]. split.
      * etrans; [apply suffix_drop|]. exists (pre ++ [slash]).
        by rewrite Hmodel, <-app_assoc.
      * rewrite length_drop. lia.
  - right. split; [done|]. by rewrite js_slice_head by lia.
Qed.

(** X14.  A truncated model name fits: for a limit of at least 4 (the
    tables use 40) the result is never longer than the limit, a name within
    the limit is returned as it is, and truncating twice is truncating
    once. *)
Theorem truncateModel_fits :
  ∀ (model : list N) (maxLen : Z),
    4 <= maxLen →
    Z.of_nat (length (truncateModel model maxLen)) <= maxLen
    ∧ (Z.of_nat (length model) <= maxLen → truncateModel model maxLen = model)
    ∧ truncateModel (truncateModel model maxLen) maxLen = truncateModel model maxLen.
Proof.
  intros model maxLen Hmax.
  assert (Z.of_nat (length (truncateModel model maxLen)) <= maxLen) as Hfit.
  { destruct (Z.le_gt_cases (Z.of_nat (length model)) maxLen) as [Hshort|Hlong].
    - by rewrite truncateModel_short.
    - destruct (truncateModel_long model maxLen Hmax) as
        [(_ & tail & -> & _ & Hlen)|(_ & ->)]; [lia| |].
      + simpl. lia.
      + rewrite length_app, length_take. simpl. lia. }
  split; [done|]. split; [apply truncateModel_short|by apply truncateModel_short].
Qed.

Lemma truncateModel_fits_witness :
  4 <= 40
  ∧ Z.of_nat (length (truncateModel
       (units "/models/llama/Meta-Llama-3.1-70B-Instruct-Q4_K_M-00001-of-00002.gguf") 40))
    <= 40.
Proof.
  assert (4 <= 40) as Hmax by lia.
  split; [exact Hmax|].
  exact (proj1 (truncateModel_fits
    (units "/models/llama/Meta-Llama-3.1-70B-Instruct-Q4_K_M-00001-of-00002.gguf") 40 Hmax)).
Defined.

(** X15.  What a truncated name keeps.  For a limit of at least 4 and a name
    longer than it: a name with a slash becomes three dots followed by an end
    piece of the name, so the end of the file name stays readable; a name
    without a slash becomes its first [maxLen - 3] code units followed by
    three dots. *)
Theorem truncateModel_keeps_ends :
  ∀ (model : list N) (maxLen : Z),
    4 <= maxLen → maxLen < Z.of_nat (length model) →
    (slash ∈ model →
       ∃ tail, truncateModel model maxLen = [dot; dot; dot] ++ tail
         ∧ tail `suffix_of` model)
    ∧ (slash ∉ model →
       truncateModel model maxLen = take (Z.to_nat (maxLen - 3)) model ++ [dot; dot; dot]
       ∧ Z.of_nat (length (truncateModel model maxLen)) = maxLen).
Proof.
  intros model maxLen Hmax Hlong.
  destruct (truncateModel_long model maxLen Hmax Hlong) as
    [(Hin & tail & Heq & Hsuf & _)|(Hno & Heq)].
  - split; [|done]. intros _. by exists tail.
  - split; [done|]. intros _. split; [done|].
    rewrite Heq, length_app, length_take. simpl. lia.
Qed.

Lemma truncateModel_keeps_ends_witness :
  (4 <= 10 ∧ 10 < Z.of_nat (length (units "org/some-model-name")))
  ∧ ∃ tail, truncateModel (units "org/some-model-name") 10 = [dot; dot; dot] ++ tail
      ∧ tail `suffix_of` units "org/some-model-name".
Proof.
  assert (4 <= 10) as Hmax by lia.
  assert (10 < Z.of_nat (length (units "org/some-model-name"))) as Hlong
    by (vm_compute; reflexivity).
  split; [by split|].
  apply (proj1 (truncateModel_keeps_ends (units "org/some-model-name") 10 Hmax Hlong)).
  refine (bool_decide_unpack _ _). vm_compute. exact I.
Defined.

(** ** The tables: the rows of the unified table *)

Section RowsFacts.
Context (getModelCategory : Instance → option ModelCategory).
Context (alias : Instance → string).
Context (localeCompare : string → string → Z).

(** [localeCompare] orders strings: any two compare, and consistently. *)
Hypothesis localeCompare_total : ∀ a b, localeCompare a b <= 0 ∨ localeCompare b a <= 0.
Hypothesis localeCompare_trans :
  ∀ a b c, localeCompare a b <= 0 → localeCompare b c <= 0 → localeCompare a c <= 0.

Local Abbreviation cmp := (row_cmp getModelCategory alias localeCompare).
Local Abbreviation rank := (category_rank getModelCategory).

Lemma row_cmp_total a b : cmp a b <= 0 ∨ cmp b a <= 0.
Proof.
  unfold row_cmp. destruct (Z.eqb_spec (rank a) (rank b)) as [Heq|Hne]; simpl.
  - rewrite (proj2 (Z.eqb_eq (rank b) (rank a))) by done. simpl.
    apply localeCompare_total.
  - destruct (Z.eqb_spec (rank b) (rank a)); simpl; lia.
Qed.

Lemma row_cmp_trans a b c : cmp a b <= 0 → cmp b c <= 0 → cmp a c <= 0.
Proof.
  unfold row_cmp.
  destruct (Z.eqb_spec (rank a) (rank b)), (Z.eqb_spec (rank b) (rank c)),
    (Z.eqb_spec (rank a) (rank c)); simpl; try lia.
  apply localeCompare_trans.
Qed.

Lemma row_cmp_rank a b : cmp a b <= 0 → rank a <= rank b.
Proof.
  unfold row_cmp. destruct (Z.eqb_spec (rank a) (rank b)); simpl; lia.
Qed.

Lemma all_rows_length hs :
  length (all_rows hs) = sum_list (length ∘ instances <$> hs).
Proof.
  unfold all_rows. induction hs as [|h hs IH]; [done|].
  csimpl. rewrite length_app, IH. unfold host_rows. by rewrite length_fmap.
Qed.

Lemma host_rows_elem_of h r :
  r ∈ host_rows h
  ↔ row_instance r ∈ instances h
    ∧ row_host r = {| info_id := id_of h; info_name := host_name (host h) |}.
Proof.
  unfold host_rows. rewrite list_elem_of_fmap. split.
  - by intros (inst & -> & Hinst).
  - intros [Hinst Hhost]. exists (row_instance r). split; [|done].
    destruct r. simpl in *. by subst.
Qed.

Lemma all_rows_elem_of hs r :
  r ∈ all_rows hs
  ↔ ∃ h, h ∈ hs ∧ row_instance r ∈ instances h
       ∧ row_host r = {| info_id := id_of h; info_name := host_name (host h) |}.
Proof.
  unfold all_rows. induction hs as [|h hs IH]; csimpl.
  { split; [by intros ?%elem_of_nil|]. by intros (h & ?%elem_of_nil & _). }
  rewrite elem_of_app, IH, host_rows_elem_of. split.
  - intros [[Hinst Hhost]|(h' & Hh' & Hrest)].
    + exists h. split; [by left|done].
    + exists h'. split; [by right|done].
  - intros (h' & [->|Hh']%elem_of_cons & Hrest); [by left|].
    right. by exists h'.
Qed.

Lemma rows_perm hs : rows getModelCategory alias localeCompare hs ≡ₚ all_rows hs.
Proof. apply Array_sort_perm. Qed.

Lemma rows_sorted hs :
  StronglySorted (λ a b, rank a <= rank b) (rows getModelCategory alias localeCompare hs).
Proof.
  pose proof (Array_sort_sorted cmp row_cmp_total row_cmp_trans (all_rows hs)) as H.
  unfold rows. induction H as [|r l Hl IH Hr]; constructor; [done|].
  eapply Forall_impl; [exact Hr|]. intros b. apply row_cmp_rank.
Qed.
End RowsFacts.

(** X16.  The unified table shows every instance of every host in exactly
    one row, with the id and name of its host, so there are as many rows as
    instances and none when no host has one; the rows are grouped by
    category in the order generation, embedding, classification, reranker,
    categories the table does not list last. *)
Theorem rows_complete_and_grouped :
  ∀ (getModelCategory : Instance → option ModelCategory) (alias : Instance → string)
    (localeCompare : string → string → Z) (hs : list HostWithInstances),
    (∀ a b, localeCompare a b <= 0 ∨ localeCompare b a <= 0) →
    (∀ a b c, localeCompare a b <= 0 → localeCompare b c <= 0 → localeCompare a c <= 0) →
    let table := rows getModelCategory alias localeCompare hs in
    table ≡ₚ all_rows hs
    ∧ length table = sum_list (length ∘ instances <$> hs)
    ∧ (∀ r, r ∈ table ↔
         ∃ h, h ∈ hs ∧ row_instance r ∈ instances h
           ∧ row_host r = {| info_id := id_of h; info_name := host_name (host h) |})
    ∧ (table = [] ↔ ∀ h, h ∈ hs → instances h = [])
    ∧ StronglySorted
        (λ a b, category_rank getModelCategory a <= category_rank getModelCategory b) table.
Proof.
  intros getModelCategory alias localeCompare hs Htotal Htrans table. subst table.
  pose proof (rows_perm getModelCategory alias localeCompare hs) as Hperm.
  split; [done|]. split; [by rewrite Hperm, all_rows_length|].
  split; [intros r; by rewrite Hperm, all_rows_elem_of|].
  split; [|by apply rows_sorted].
  split.
  - intros Hnil h Hh. rewrite Hnil in Hperm.
    apply Permutation_nil in Hperm.
    destruct (instances h) as [|inst l] eqn:Hinst; [done|]. exfalso.
    assert ({| row_instance := inst;
               row_host := {| info_id := id_of h; info_name := host_name (host h) |} |}
            ∈ all_rows hs) as Hin.
    { apply all_rows_elem_of. exists h. simpl. rewrite Hinst. repeat split; [done|by left]. }
    rewrite Hperm in Hin. by apply elem_of_nil in Hin.
  - intros Hall. apply Permutation_nil_r. rewrite Hperm. unfold all_rows.
    induction hs as [|h hs IH]; [done|]. csimpl.
    unfold host_rows at 1. rewrite (Hall h) by (by left). simpl.
    apply IH; [|intros h' Hh'; apply Hall; by right].
    apply Array_sort_perm.
Qed.

Lemma by_length_total a b : by_length a b <= 0 ∨ by_length b a <= 0.
Proof. unfold by_length. lia. Qed.

Lemma by_length_trans a b c : by_length a b <= 0 → by_length b c <= 0 → by_length a c <= 0.
Proof. unfold by_length. lia. Qed.

Lemma rows_complete_and_grouped_witness :
  length (rows (λ _, Some generation) instance_id by_length [scenario_host; overlaid_host])
  = sum_list (length ∘ instances <$> [scenario_host; overlaid_host]).
Proof.
  exact (proj1 (proj2 (rows_complete_and_grouped (λ _, Some generation) instance_id by_length
                         [scenario_host; overlaid_host] by_length_total by_length_trans))).
Defined.
